(** * typescript-notebook: a shallow embedding of the example scripts

    The repository is a notebook of short TypeScript examples.  This file
    embeds the functions the examples define and proves what they compute:

    - [Curry]      : [add], [addCurried], [curry2], [curry3]
                     (concepts/curry);
    - [NeverThrow] : [divide], [unwrapOr], the error mapper of [fetchUser]
                     (the Result-type demo);
    - [Closure]    : [createCounter], [Calculator], [createMemoizedFunction],
                     [createRateLimiter] (concepts/closure);
    - [Stream]     : [writeToFile], [writeWithBackpressure]
                     (concepts/stream);
    - [CSV]        : [CSVParser] (concepts/stream);
    - [ClosureMore], [StreamMore], [Blocking], [Validation] : the other
                     examples of these files.

    Conventions.  A JavaScript [number] that carries arbitrary values is a
    binary64 float ([PrimFloat.float]); [===] on numbers is [PrimFloat.eqb]
    (so [0 === -0] and [NaN !== NaN]).  A number that only ever counts
    (the counter's [count], array lengths, millisecond clock readings) is
    a [Z]: binary64 arithmetic is exact on integers of magnitude below
    2^53, far beyond the length of any run of these scripts.  A number
    that is compared with such counts ([maxCalls], [windowMs]) is a
    [Num.Num]: the value it stands for.  Text that is only cut and joined
    is a [string]; text whose characters are classified is a sequence of
    UTF-16 code units ([JsString.jsstring]).  A variable captured by a
    closure becomes an explicit state that every call takes and returns;
    a function passed as an argument may have effects on a store of its
    own and, where the caller's behaviour depends on it, may throw. *)

From Stdlib Require Import ZArith Lia Bool Ascii String.
From Stdlib Require Import QArith Lqa.
From Stdlib Require Import Floats.
From stdpp Require Import base option list strings gmap fin_maps.
From Equations Require Import Equations.

Local Open Scope Z_scope.
Local Set Warnings "-register-all".

(** JavaScript's [number]. *)
Abbreviation number := PrimFloat.float.

(** How many elements of a list pass a test. *)
Fixpoint countIf {A : Type} (p : A -> bool) (l : list A) : Z :=
  match l with
  | [] => 0
  | x :: l' => (if p x then 1 else 0) + countIf p l'
  end.

(* ===================================================================== *)
(** * Currying (concepts/curry) *)
(* ===================================================================== *)

Module Curry.

(** [function add(a, b, c) { return a + b + c; }] *)
Definition add (a b c : number) : number := (a + b + c)%float.

(** [function addCurried(a) { return function (b) { return function (c) {
      return a + b + c; }; }; }] *)
Definition addCurried (a : number) : number -> number -> number :=
  fun b => fun c => (a + b + c)%float.

(** A TypeScript function of several arguments takes them at once, as a
    tuple, and may read and write the heap: it is a state transformer over
    an arbitrary store [S].  A pure function is the case [S = unit]. *)
Section Generic.
Context {S A B C R : Type}.

Definition Fn2 := A * B -> S -> R * S.
Definition Fn3 := A * B * C -> S -> R * S.

(** [return (a: A) => (b: B) => fn(a, b);]  Building the two closures
    runs no code of [fn]; only the last application calls it. *)
Definition curry2 (fn : Fn2) : A -> B -> S -> R * S :=
  fun a => fun b => fun s => fn (a, b) s.

(** [return (a: A) => (b: B) => (c: C) => fn(a, b, c);] *)
Definition curry3 (fn : Fn3) : A -> B -> C -> S -> R * S :=
  fun a => fun b => fun c => fun s => fn (a, b, c) s.
End Generic.

(** [const sum = (a, b) => a + b;] and [const add3 = (a, b, c) => a + b + c;]
    as pure functions of a tuple. *)
Definition sum : @Fn2 unit number number number :=
  fun '(a, b) s => ((a + b)%float, s).
Definition add3 : @Fn3 unit number number number number :=
  fun '(a, b, c) s => (add a b c, s).

End Curry.

(* ===================================================================== *)
(** * JavaScript strings whose characters are classified *)
(* ===================================================================== *)

Module JsString.

(** Where the code asks what kind of character it reads ([trim], the
    class [\s] of a regular expression), a string is what JavaScript
    takes it for: a sequence of UTF-16 code units, each a number below
    65536.  [length], [split], [trim] and a regular expression without
    the [u] flag all work on code units. *)
Abbreviation jsstring := (list N).

(** A string literal of the source, all of whose characters are ASCII. *)
Definition js (s : string) : jsstring :=
  List.map N_of_ascii (list_ascii_of_string s).

(** ["\n"] *)
Definition LF : N := 10%N.

(** The white space of the language (WhiteSpace and LineTerminator),
    which [trim] strips and [\s] matches: tab, line feed, vertical tab,
    form feed, carriage return, space, no-break space, U+1680,
    U+2000 to U+200A, the line and paragraph separators U+2028 and
    U+2029, U+202F, U+205F, U+3000, and the byte-order mark U+FEFF. *)
Definition isWhiteSpace (c : N) : bool :=
  ((9 <=? c) && (c <=? 13) || (c =? 32) || (c =? 160) || (c =? 5760)
   || (8192 <=? c) && (c <=? 8202) || (c =? 8232) || (c =? 8233)
   || (c =? 8239) || (c =? 8287) || (c =? 12288) || (c =? 65279))%N.

(** [s.trim()]: white space removed at both ends. *)
Fixpoint trimStart (s : jsstring) : jsstring :=
  match s with
  | [] => []
  | c :: s' => if isWhiteSpace c then trimStart s' else s
  end.
Definition trim (s : jsstring) : jsstring :=
  rev (trimStart (rev (trimStart s))).

(** [s.split(sep)] for a separator of one code unit: the pieces between
    the separators, at least one piece. *)
Fixpoint split (sep : N) (s : jsstring) : list jsstring :=
  match s with
  | [] => [[]]
  | c :: s' =>
      if (c =? sep)%N then [] :: split sep s'
      else
        match split sep s' with
        | piece :: pieces => (c :: piece) :: pieces
        | [] => [[c]]
        end
  end.

(** Truthiness of a string: it is not empty. *)
Definition truthy (s : jsstring) : bool :=
  match s with [] => false | _ :: _ => true end.

End JsString.

(* ===================================================================== *)
(** * The Result-type demo *)
(* ===================================================================== *)

Module NeverThrow.

(** The library's [Result<T, E>]: [ok(value)] or [err(error)]. *)
Inductive Result (T E : Type) : Type :=
| ok (value : T)
| err (error : E).
Arguments ok {T E} value.
Arguments err {T E} error.

Definition isOk {T E} (r : Result T E) : bool :=
  match r with ok _ => true | err _ => false end.
Definition isErr {T E} (r : Result T E) : bool := negb (isOk r).

(** [unwrapOr(default)]: the value of an [ok], the default of an [err]. *)
Definition unwrapOr {T E} (r : Result T E) (default : T) : T :=
  match r with ok v => v | err _ => default end.

(** [if (b === 0) return err("Division by zero"); return ok(a / b);] *)
Definition divide (a b : number) : Result number string :=
  if PrimFloat.eqb b 0%float then err "Division by zero"
  else ok (a / b)%float.

(** ** [fetchUser]: the error mapper handed to [ResultAsync.fromPromise] *)

(** [type ApiError = { type: "network"; message } | { type: "http"; status }
                   | { type: "parse"; message }] *)
Inductive ApiError : Type :=
| network (message : string)
| http (status : number)
| parse (message : string).

(** The discriminant field [type] of an [ApiError]. *)
Definition type_ (e : ApiError) : string :=
  match e with
  | network _ => "network"
  | http _ => "http"
  | parse _ => "parse"
  end.

(** What the mapper observes of the value the promise rejected with:
    [error instanceof TypeError] and its [message]; whether it is a
    non-null object ([error && typeof error === "object"]); its [status]
    property when ["status" in error]; and [String(error)]. *)
Record Thrown : Type := {
  instanceof_TypeError : bool;
  message_of : string;
  is_object : bool;
  status_of : option number;
  String_of : string
}.

(** [(error) => { if (error instanceof TypeError) return {type: "network", ...};
       if (error && typeof error === "object" && "status" in error)
         return {type: "http", status: error.status};
       return {type: "parse", message: String(error)}; }] *)
Definition mapError (error : Thrown) : ApiError :=
  if instanceof_TypeError error then network (message_of error)
  else
    match is_object error, status_of error with
    | true, Some status => http status
    | _, _ => parse (String_of error)
    end.

(** The promise inside [fetchUser] settles with a user or rejects with a
    thrown value; [ResultAsync.fromPromise] turns the first into [ok] and
    maps the second through the error mapper into [err]. *)
Definition fromPromise {T} (settled : T + Thrown) : Result T ApiError :=
  match settled with
  | inl user => ok user
  | inr error => err (mapError error)
  end.

(** The handler of the [match] on [fetchUser]'s error: one console line
    per [type]. *)
Definition reportError (e : ApiError) : string :=
  match e with
  | network _ => "Connection failed:"
  | http _ => "HTTP error:"
  | parse _ => "Parse error:"
  end.

(** [return password.length >= 8 ? ok(password)
                                 : err("Password must be at least 8 characters");]
    The password is given by its code units, which [length] counts. *)
Definition validatePassword (password : JsString.jsstring)
  : Result JsString.jsstring string :=
  if (8 <=? Z.of_nat (length password))
  then ok password
  else err "Password must be at least 8 characters".

End NeverThrow.


(* ===================================================================== *)
(** * Numbers that are compared with counts and clock readings *)
(* ===================================================================== *)

Module Num.

(** The parameters [maxCalls] and [windowMs] of the rate limiter are
    JavaScript numbers of any value: whole or fractional, an infinity, or
    NaN.  The code compares them with whole numbers (an array length, a
    clock reading), and facts about counts are wanted of them, so such a
    number is given by the value it stands for: every finite binary64
    number is a rational. *)
Inductive Num : Type :=
| Finite (q : Q)
| PlusInfinity
| MinusInfinity
| NaN.

(** A whole number as a number. *)
Definition ofZ (z : Z) : Num := Finite (inject_Z z).

(** [2^e] *)
Definition pow2 (e : Z) : Q :=
  if 0 <=? e then inject_Z (2 ^ e) else 1 # Z.to_pos (2 ^ (- e)).

(** The value of a binary64 number. *)
Definition ofFloat (f : PrimFloat.float) : Num :=
  match Prim2SF f with
  | S754_zero _ => Finite 0
  | S754_infinity s => if s then MinusInfinity else PlusInfinity
  | S754_nan => NaN
  | S754_finite s m e =>
      Finite (inject_Z (if s then Zneg m else Zpos m) * pow2 e)
  end.

(** Whether two numbers are the same value. *)
Definition same (x y : Num) : bool :=
  match x, y with
  | Finite a, Finite b => Qeq_bool a b
  | PlusInfinity, PlusInfinity => true
  | MinusInfinity, MinusInfinity => true
  | NaN, NaN => true
  | _, _ => false
  end.

(** [x < y], which binary64 decides exactly: false whenever one side is
    NaN. *)
Definition lt (x y : Num) : bool :=
  match x, y with
  | NaN, _ | _, NaN => false
  | Finite a, Finite b => negb (Qle_bool b a)
  | Finite _, PlusInfinity => true
  | Finite _, MinusInfinity => false
  | PlusInfinity, _ => false
  | MinusInfinity, MinusInfinity => false
  | MinusInfinity, _ => true
  end.

(** [x <= y]: false whenever one side is NaN. *)
Definition le (x y : Num) : bool :=
  match x, y with
  | NaN, _ | _, NaN => false
  | Finite a, Finite b => Qle_bool a b
  | Finite _, PlusInfinity => true
  | Finite _, MinusInfinity => false
  | PlusInfinity, PlusInfinity => true
  | PlusInfinity, _ => false
  | MinusInfinity, _ => true
  end.

(** ** Rounding

    The finite binary64 numbers are the rationals [m * 2^e] with a whole
    [m] of magnitude below 2^53 and [-1074 <= e <= 971].  An arithmetic
    operation returns the binary64 number nearest to its exact result,
    the one with the even [m] on a tie, and an infinity beyond the
    largest finite number. *)

(** The floor of the binary logarithm of [n / d], for [n > 0]. *)
Definition ilog2 (n : Z) (d : positive) : Z :=
  let e0 := Z.log2 n - Z.log2 (Zpos d) in
  if (if 0 <=? e0 then Zpos d * 2 ^ e0 <=? n else Zpos d <=? n * 2 ^ (- e0))
  then e0 else e0 - 1.

(** The whole number nearest to [n / d], the even one on a tie, for
    [n >= 0] and [d > 0]. *)
Definition nearestEven (n d : Z) : Z :=
  let fl := n / d in
  match 2 * (n mod d) ?= d with
  | Lt => fl
  | Gt => fl + 1
  | Eq => if Z.even fl then fl else fl + 1
  end.

(** The binary64 number nearest to [q]: [e] is the exponent of the last
    place that 53 bits reach from the leading bit of [q] (not below
    -1074), [m] the multiple of [2^e] nearest to the magnitude of [q]. *)
Definition round64 (q : Q) : Num :=
  let n := Qnum q in
  let d := Qden q in
  if n =? 0 then Finite 0
  else
    let a := Z.abs n in
    let e := Z.max (ilog2 a d - 52) (-1074) in
    let m := if 0 <=? e then nearestEven a (Zpos d * 2 ^ e)
             else nearestEven (a * 2 ^ (- e)) (Zpos d) in
    if (971 <? e) || ((e =? 971) && (2 ^ 53 <=? m))
    then (if n <? 0 then MinusInfinity else PlusInfinity)
    else Finite (inject_Z (Z.sgn n * m) * pow2 e).

(** [x - y], as binary64 computes it. *)
Definition sub (x y : Num) : Num :=
  match x, y with
  | NaN, _ | _, NaN => NaN
  | Finite a, Finite b => round64 (a - b)
  | Finite _, PlusInfinity => MinusInfinity
  | Finite _, MinusInfinity => PlusInfinity
  | PlusInfinity, PlusInfinity => NaN
  | PlusInfinity, _ => PlusInfinity
  | MinusInfinity, MinusInfinity => NaN
  | MinusInfinity, _ => MinusInfinity
  end.

(** The difference and the sum themselves, not rounded: what a
    statement about a stretch of time means by them. *)
Definition minus (x y : Num) : Num :=
  match x, y with
  | NaN, _ | _, NaN => NaN
  | Finite a, Finite b => Finite (a - b)
  | Finite _, PlusInfinity => MinusInfinity
  | Finite _, MinusInfinity => PlusInfinity
  | PlusInfinity, PlusInfinity => NaN
  | PlusInfinity, _ => PlusInfinity
  | MinusInfinity, MinusInfinity => NaN
  | MinusInfinity, _ => MinusInfinity
  end.

Definition plus (x y : Num) : Num :=
  match x, y with
  | NaN, _ | _, NaN => NaN
  | Finite a, Finite b => Finite (a + b)
  | Finite _, PlusInfinity => PlusInfinity
  | Finite _, MinusInfinity => MinusInfinity
  | PlusInfinity, MinusInfinity => NaN
  | PlusInfinity, _ => PlusInfinity
  | MinusInfinity, PlusInfinity => NaN
  | MinusInfinity, _ => MinusInfinity
  end.

End Num.

(* ===================================================================== *)
(** * Closures (concepts/closure) *)
(* ===================================================================== *)

Module Closure.

(** ** 2. [createCounter] *)

(** The variable [count] that the three methods close over. *)
Record Counter : Type := { count : Z }.

(** [let count = 0; return { increment, decrement, getCount };] *)
Definition createCounter : Counter := {| count := 0 |}.

(** [count++; return count;] *)
Definition increment (c : Counter) : Z * Counter :=
  let c' := {| count := count c + 1 |} in (count c', c').

(** [count--; return count;] *)
Definition decrement (c : Counter) : Z * Counter :=
  let c' := {| count := count c - 1 |} in (count c', c').

(** [return count;] *)
Definition getCount (c : Counter) : Z * Counter := (count c, c).

(** The methods of the returned object. *)
Inductive CounterMethod : Type := Increment | Decrement | GetCount.

(** The object literal [createCounter] returns: its own properties. *)
Definition counterObject : gmap string CounterMethod :=
  <["increment" := Increment]>
    (<["decrement" := Decrement]> (<["getCount" := GetCount]> ∅)).

Definition callCounter (m : CounterMethod) (c : Counter) : Z * Counter :=
  match m with
  | Increment => increment c
  | Decrement => decrement c
  | GetCount => getCount c
  end.

(** A sequence of method calls, first call first: the values returned and
    the counter afterwards. *)
Fixpoint runCounter (ms : list CounterMethod) (c : Counter) : list Z * Counter :=
  match ms with
  | [] => ([], c)
  | m :: ms' =>
      let '(r, c') := callCounter m c in
      let '(rs, c'') := runCounter ms' c' in
      (r :: rs, c'')
  end.

(** How often a method occurs in a sequence of calls. *)
Definition isIncrement (m : CounterMethod) : bool :=
  match m with Increment => true | _ => false end.
Definition isDecrement (m : CounterMethod) : bool :=
  match m with Decrement => true | _ => false end.
Definition increments (ms : list CounterMethod) : Z := countIf isIncrement ms.
Definition decrements (ms : list CounterMethod) : Z := countIf isDecrement ms.

(** ** 9. [Calculator] *)

(** The console line [log(operation, result)] prints. *)
Record LogLine : Type := { operation : string; logged : number }.

(** The module's private state: [lastResult], and the console it wrote. *)
Record Calc : Type := { lastResult : number; console : list LogLine }.

(** [let lastResult = 0;] *)
Definition Calculator : Calc := {| lastResult := 0%float; console := [] |}.

Definition log (op : string) (result : number) (s : Calc) : Calc :=
  {| lastResult := lastResult s;
     console := console s ++ [{| operation := op; logged := result |}] |}.

(** [lastResult = a + b; log("Addition", lastResult); return lastResult;] *)
Definition calc_add (a b : number) (s : Calc) : number * Calc :=
  let s1 := {| lastResult := (a + b)%float; console := console s |} in
  let s2 := log "Addition" (lastResult s1) s1 in
  (lastResult s2, s2).

(** [lastResult = a - b; log("Subtraction", lastResult); return lastResult;] *)
Definition calc_subtract (a b : number) (s : Calc) : number * Calc :=
  let s1 := {| lastResult := (a - b)%float; console := console s |} in
  let s2 := log "Subtraction" (lastResult s1) s1 in
  (lastResult s2, s2).

(** [return lastResult;] *)
Definition getLastResult (s : Calc) : number * Calc := (lastResult s, s).

(** ** 8. [createMemoizedFunction] *)

(** The argument type [T extends string | number]. *)
Inductive Key : Type :=
| KString (s : string)
| KNumber (n : number).

(** The key comparison of a JavaScript [Map] (SameValueZero): strings by
    content; numbers by [===], except that [NaN] is the same as [NaN].  So
    [0] and [-0] are one key. *)
Definition sameValueZero (x y : Key) : bool :=
  match x, y with
  | KString a, KString b => String.eqb a b
  | KNumber a, KNumber b =>
      PrimFloat.eqb a b || (PrimFloat.is_nan a && PrimFloat.is_nan b)
  | _, _ => false
  end.

(** [new Map<T, R>()]: the entries, oldest first. *)
Definition JsMap (R : Type) : Type := list (Key * R).

(** [cache.get(arg)]; [cache.has(arg)] is whether it finds an entry. *)
Fixpoint Map_get {R} (m : JsMap R) (k : Key) : option R :=
  match m with
  | [] => None
  | (k', v) :: m' => if sameValueZero k' k then Some v else Map_get m' k
  end.

Definition Map_has {R} (m : JsMap R) (k : Key) : bool :=
  match Map_get m k with Some _ => true | None => false end.

(** [cache.set(arg, result)]: overwrite the entry of that key, or append
    a new one (a new key [-0] is stored as [0]). *)
Definition storedKey (k : Key) : Key :=
  match k with
  | KNumber n => if PrimFloat.eqb n 0%float then KNumber 0%float else k
  | KString _ => k
  end.

Fixpoint Map_set {R} (m : JsMap R) (k : Key) (v : R) : JsMap R :=
  match m with
  | [] => [(storedKey k, v)]
  | (k', v') :: m' =>
      if sameValueZero k' k then (k', v) :: m' else (k', v') :: Map_set m' k v
  end.

(** The two console lines of the wrapper. *)
Inductive MemoLog : Type :=
| CacheHit (arg : Key)      (* [Cache hit for ${arg}] *)
| Computing (arg : Key).    (* [Computing for ${arg}] *)

(** How a call of a function ends: it returns a value, or it throws
    one. *)
Inductive Completion (R E : Type) : Type :=
| Return (value : R)
| Throw (thrown : E).
Arguments Return {R E} value.
Arguments Throw {R E} thrown.

Definition returned {R E} (c : Completion R E) : bool :=
  match c with Return _ => true | Throw _ => false end.

Section Memo.
(** [fn] may have effects of its own, on a store [W], and may throw; a
    pure [fn] leaves [W] alone and returns. *)
Context {W R E : Type}.
Variable fn : Key -> W -> Completion R E * W.

(** The closure's state: [cache], and what the wrapper printed. *)
Record Memo : Type := { cache : JsMap R; memoConsole : list MemoLog }.

(** [const cache = new Map<T, R>();] *)
Definition createMemoizedFunction : Memo :=
  {| cache := []; memoConsole := [] |}.

(** [if (cache.has(arg)) { log hit; return cache.get(arg)!; }
     log computing; const result = fn(arg); cache.set(arg, result);
     return result;]
    The test [cache.has(arg)] and the read [cache.get(arg)!] are one
    lookup here: [has] holds exactly when [get] finds an entry.  When
    [fn(arg)] throws, the wrapper is left at once: nothing is cached and
    the caller gets what [fn] threw. *)
Definition memoized (arg : Key) (st : Memo) (w : W)
  : Completion R E * Memo * W :=
  match Map_get (cache st) arg with
  | Some cached =>
      (Return cached,
       {| cache := cache st;
          memoConsole := memoConsole st ++ [CacheHit arg] |},
       w)
  | None =>
      match fn arg w with
      | (Return result, w') =>
          (Return result,
           {| cache := Map_set (cache st) arg result;
              memoConsole := memoConsole st ++ [Computing arg] |},
           w')
      | (Throw thrown, w') =>
          (Throw thrown,
           {| cache := cache st;
              memoConsole := memoConsole st ++ [Computing arg] |},
           w')
      end
  end.

(** A sequence of calls of the wrapper, first call first, the caller
    catching what a call throws: how each call ended. *)
Fixpoint runMemoized (args : list Key) (st : Memo) (w : W)
  : list (Completion R E) * Memo * W :=
  match args with
  | [] => ([], st, w)
  | arg :: args' =>
      let '(r, st', w') := memoized arg st w in
      let '(rs, st'', w'') := runMemoized args' st' w' in
      (r :: rs, st'', w'')
  end.
End Memo.

Arguments Memo R : clear implicits.

(** [function expensiveCalculation(n) { return n * n; }], which the example
    memoizes; it has no effect. *)
Definition expensiveCalculation (n : number) : number := (n * n)%float.

(** A pure function of the key as the [fn] of the wrapper: it returns,
    and has no effect. *)
Definition pureFn {R E} (f : Key -> R) : Key -> unit -> Completion R E * unit :=
  fun k w => (Return (f k), w).

(** ** 10. [createRateLimiter] *)

(** A clock reading ([Date.now()]) is a whole number of milliseconds, a
    [Z]; [maxCalls] and [windowMs] are numbers of any value, [Num]. *)

(** [while (calls.length > 0 && calls[0] < now - windowMs) calls.shift();] *)
Fixpoint dropOld (threshold : Num.Num) (calls : list Z) : list Z :=
  match calls with
  | [] => []
  | first :: rest =>
      if Num.lt (Num.ofZ first) threshold then dropOld threshold rest
      else calls
  end.

Section RateLimiter.
Context {W A R : Type}.
(** [createRateLimiter(maxCalls, windowMs)] *)
Variables maxCalls windowMs : Num.Num.
(** The limited function, with its effects on a store [W].  (When it may
    throw, [R] holds how it ended: the wrapper passes that on, having
    recorded the call already.  The wrappers that one limiter makes for
    several functions share the array [calls]; a run through several of
    them is a run of one [fn] that tells them apart by its argument.) *)
Variable fn : A -> W -> R * W.

(** What a call of the wrapper returns: [fn]'s result, or [null]. *)
Inductive Limited : Type :=
| Returned (result : R)
| Null.

(** The closure's state: the array [calls], and how often the wrapper
    has printed "Rate limit exceeded!". *)
Record Limiter : Type := { calls : list Z; refusals : nat }.

(** [const calls: number[] = [];] *)
Definition createRateLimiter : Limiter := {| calls := []; refusals := 0 |}.

(** One call of the wrapper, [now] being what [Date.now()] returns:
    [while (...) calls.shift();
     if (calls.length < maxCalls) { calls.push(now); return fn(...args); }
     else { console.log("Rate limit exceeded!"); return null; }] *)
Definition limited (now : Z) (args : A) (st : Limiter) (w : W)
  : Limited * Limiter * W :=
  let kept := dropOld (Num.sub (Num.ofZ now) windowMs) (calls st) in
  if Num.lt (Num.ofZ (Z.of_nat (length kept))) maxCalls then
    let '(result, w') := fn args w in
    (Returned result, {| calls := kept ++ [now]; refusals := refusals st |}, w')
  else
    (Null, {| calls := kept; refusals := S (refusals st) |}, w).

(** Whether a call went through to [fn]. *)
Definition wentThrough (r : Limited) : bool :=
  match r with Returned _ => true | Null => false end.

(** A run of calls, each with its clock reading and arguments: what each
    returned, and the state afterwards. *)
Fixpoint runLimited (cs : list (Z * A)) (st : Limiter) (w : W)
  : list Limited * Limiter * W :=
  match cs with
  | [] => ([], st, w)
  | (now, args) :: cs' =>
      let '(r, st', w') := limited now args st w in
      let '(rs, st'', w'') := runLimited cs' st' w' in
      (r :: rs, st'', w'')
  end.

(** Every timestamp the wrapper has recorded during a run, oldest
    first: the readings of the calls that went through. *)
Fixpoint recorded (cs : list (Z * A)) (st : Limiter) (w : W) : list Z :=
  match cs with
  | [] => []
  | (now, args) :: cs' =>
      let '(r, st', w') := limited now args st w in
      (if wentThrough r then [now] else []) ++ recorded cs' st' w'
  end.

(** How many of the timestamps [ts] lie within the last [windowMs]
    milliseconds at time [now]: [now - windowMs <= t] and [t <= now],
    the difference being the exact one. *)
Definition inWindow (now t : Z) : bool :=
  Num.le (Num.minus (Num.ofZ now) windowMs) (Num.ofZ t) && (t <=? now).
Definition countInWindow (now : Z) (ts : list Z) : Z :=
  countIf (inWindow now) ts.

(** Whether binary64 computes [now - windowMs] without rounding. *)
Definition exactAt (now : Z) : bool :=
  Num.same (Num.sub (Num.ofZ now) windowMs) (Num.minus (Num.ofZ now) windowMs).
End RateLimiter.

Arguments Limited R : clear implicits.
Arguments Null {R}.

End Closure.

(* ===================================================================== *)
(** * Streams (concepts/stream) *)
(* ===================================================================== *)

Module Stream.

(** The line feed that ends a line written to a file.  The text the
    writers and the line counter handle is only cut, joined and searched
    for line feeds, so it is given as a string of bytes. *)
Definition LF : ascii := "010"%char.

(** ** 7. [writeToFile] and 8. [writeWithBackpressure] *)

Section Writers.
(** A [Writable], as far as a writer sees it: [writable.write(chunk)]
    takes the chunk and answers [false] when its internal buffer is
    full; between two turns of the event loop it flushes ([flush]) and,
    if it had answered [false], emits the "drain" event. *)
Context {Wr : Type}.
Variable write : Wr -> string -> Wr * bool.
Variable flush : Wr -> Wr.

(** [data.forEach((line) => { fileStream.write(line + "\n"); });]
    The chunks submitted, and the stream afterwards; the answer of
    [write] is dropped. *)
Fixpoint writeToFile (data : list string) (wr : Wr) : list string * Wr :=
  match data with
  | [] => ([], wr)
  | line :: data' =>
      let chunk := line +:+ String LF "" in
      let '(wr', _) := write wr chunk in
      let '(submitted, wr'') := writeToFile data' wr' in
      (chunk :: submitted, wr'')
  end.

(** One call of the inner function [write()], the chunks from index [i]
    on being [rest]:
    [let ok = true;
     while (i < data.length && ok) {
       const chunk = data[i]; i++;
       if (i === data.length) writable.write(chunk, callback);
       else ok = writable.write(chunk);
     }]
    It returns the chunks it submitted, the chunks left (those from the
    new [i] on) and the stream. *)
Fixpoint writeLoop (rest : list string) (wr : Wr)
  : list string * list string * Wr :=
  match rest with
  | [] => ([], [], wr)
  | chunk :: rest' =>
      let '(wr', ok) := write wr chunk in
      match rest' with
      | [] => ([chunk], [], wr')          (* last chunk: [ok] is not assigned *)
      | _ :: _ =>
          if ok then
            let '(submitted, remaining, wr'') := writeLoop rest' wr' in
            (chunk :: submitted, remaining, wr'')
          else ([chunk], rest', wr')
      end
  end.

(** [if (i < data.length) writable.once("drain", write);] *)
Definition waitsForDrain (remaining : list string) : bool :=
  match remaining with [] => false | _ :: _ => true end.

(** What the call [writeWithBackpressure(writable, data)] itself does,
    before it returns to the event loop: the first [write()]. *)
Definition writeWithBackpressure (data : list string) (wr : Wr)
  : list string * list string * Wr :=
  writeLoop data wr.

(** The whole run: after each [write()] that left chunks behind, the
    stream flushes, emits "drain", and the listener calls [write()]
    again.  One list of submitted chunks per call of [write()]. *)
Fixpoint drainRounds (fuel : nat) (rest : list string) (wr : Wr)
  : list (list string) * list string * Wr :=
  match fuel with
  | O => ([], rest, wr)
  | S fuel' =>
      let '(submitted, remaining, wr') := writeLoop rest wr in
      if waitsForDrain remaining then
        let '(later, remaining', wr'') := drainRounds fuel' remaining (flush wr') in
        (submitted :: later, remaining', wr'')
      else ([submitted], remaining, wr')
  end.
End Writers.

(** Two streams for the examples: one that never reports a full buffer,
    one that always does.  Their state is the chunks they were given. *)
Definition roomyWrite (wr : list string) (chunk : string) : list string * bool :=
  (wr ++ [chunk], true).
Definition fullWrite (wr : list string) (chunk : string) : list string * bool :=
  (wr ++ [chunk], false).

(** And one that reports a full buffer once it holds [mark] chunks. *)
Definition markWrite (mark : nat) (wr : list string) (chunk : string)
  : list string * bool :=
  (wr ++ [chunk], (length (wr ++ [chunk]) <? mark)%nat).

End Stream.

(* ===================================================================== *)
(** * Streams: 12. [CSVParser] *)
(* ===================================================================== *)

Module CSV.
Import JsString.

(** [","] *)
Definition comma : N := 44%N.

(** The object built by [reduce]: each own property and its value, a
    value being a string or [undefined] ([None]). *)
Abbreviation JsObject := (gmap jsstring (option jsstring)).

(** [acc[key] = value] on an object made by [{}], the value being a
    string or [undefined].  It creates or overwrites the own property
    [key], for every key but ["__proto__"]: that one is the accessor
    inherited from [Object.prototype], whose setter ignores a value that
    is neither an object nor [null], so that nothing changes. *)
Definition assign (acc : JsObject) (key : jsstring) (value : option jsstring)
  : JsObject :=
  if bool_decide (key = js "__proto__") then acc else <[key := value]> acc.

(** [this.header.reduce((acc, key, i) => { acc[key.trim()] = values[i]?.trim();
                                           return acc; }, {})],
    from index [i] on. *)
Fixpoint reduceFrom (i : nat) (header values : list jsstring) (acc : JsObject)
  : JsObject :=
  match header with
  | [] => acc
  | key :: header' =>
      reduceFrom (S i) header' values
        (assign acc (trim key) (trim <$> (values !! i)))
  end.

(** [JSON.stringify(obj) + "\n"], as the JSON object the text denotes:
    the properties whose value is not [undefined]. *)
Definition JSON_stringify (obj : JsObject) : gmap jsstring jsstring :=
  omap id obj.

(** The parser: its field [header], and what it has pushed downstream. *)
Record CSVParser : Type := {
  header : option (list jsstring);
  pushed : list (gmap jsstring jsstring)
}.

(** [private header: string[] | null = null;] *)
Definition newCSVParser : CSVParser := {| header := None; pushed := [] |}.

(** The body of [lines.forEach((line) => { ... })]:
    [if (!this.header) { this.header = line.split(","); }
     else if (line.trim()) { const values = line.split(","); ...
       this.push(JSON.stringify(obj) + "\n"); }] *)
Definition eachLine (st : CSVParser) (line : jsstring) : CSVParser :=
  match header st with
  | None =>
      {| header := Some (split comma line); pushed := pushed st |}
  | Some h =>
      if truthy (trim line) then
        let values := split comma line in
        let obj := reduceFrom 0 h values ∅ in
        {| header := Some h; pushed := pushed st ++ [JSON_stringify obj] |}
      else st
  end.

(** [_transform(chunk, _encoding, callback)], [chunk] standing for the
    string [chunk.toString()]:
    [const lines = chunk.toString().split("\n"); lines.forEach(...)] *)
Definition _transform (st : CSVParser) (chunk : jsstring) : CSVParser :=
  foldl eachLine st (split LF chunk).

(** [csvParser.write(chunk)] for each chunk in turn, on a fresh parser. *)
Definition writeChunks (chunks : list jsstring) : CSVParser :=
  foldl _transform newCSVParser chunks.

End CSV.

(* ===================================================================== *)
(** * Closures: the other examples of concepts/closure *)
(* ===================================================================== *)

Module ClosureMore.
Import Closure.

(** ** 9. [Calculator]: sequences of operations *)

(** A call of one of the two operations that compute. *)
Inductive CalcOp : Type :=
| OpAdd (a b : number)         (* [Calculator.add(a, b)] *)
| OpSubtract (a b : number).   (* [Calculator.subtract(a, b)] *)

Definition callCalc (op : CalcOp) (s : Calc) : number * Calc :=
  match op with
  | OpAdd a b => calc_add a b s
  | OpSubtract a b => calc_subtract a b s
  end.

(** Calls in sequence, first call first: the values returned and the
    module afterwards. *)
Fixpoint runCalc (ops : list CalcOp) (s : Calc) : list number * Calc :=
  match ops with
  | [] => ([], s)
  | op :: ops' =>
      let '(r, s') := callCalc op s in
      let '(rs, s'') := runCalc ops' s' in
      (r :: rs, s'')
  end.

(** ** 5. [setupClickHandler] *)

(** The line [Element ${elementId} clicked ${clickCount} times]. *)
Record ClickLine : Type := { element : string; times : Z }.

(** What [handleClick] closes over: the parameter [elementId] and the
    variable [clickCount]. *)
Record ClickHandler : Type := { elementId : string; clickCount : Z }.

(** [let clickCount = 0; return function handleClick() { ... };] *)
Definition setupClickHandler (id : string) : ClickHandler :=
  {| elementId := id; clickCount := 0 |}.

(** [clickCount++; console.log(...);]: the line printed and the handler
    afterwards. *)
Definition handleClick (h : ClickHandler) : ClickLine * ClickHandler :=
  let h' := {| elementId := elementId h; clickCount := clickCount h + 1 |} in
  ({| element := elementId h'; times := clickCount h' |}, h').

(** [n] clicks in a row: the lines printed. *)
Fixpoint clicks (n : nat) (h : ClickHandler) : list ClickLine * ClickHandler :=
  match n with
  | O => ([], h)
  | S n' =>
      let '(l, h') := handleClick h in
      let '(ls, h'') := clicks n' h' in
      (l :: ls, h'')
  end.

(** ** 6. and 7. Closures made in a loop *)

(** The bindings of the loop variable [i] are cells of a store; a closure
    [function () { console.log(i); }] is the cell it captured. *)
Record Handlers : Type := {
  handlers : list nat;     (* the array [handlers]: one captured cell each *)
  cells : list Z           (* the value of every binding of [i] *)
}.

(** [handlers[j]()]: what the call prints, the value its binding has now;
    [None] when there is no such handler. *)
Definition callHandler (hs : Handlers) (j : nat) : option Z :=
  handlers hs !! j ≫= fun cell => cells hs !! cell.

(** [for (var i = 0; i < bound; i++) { handlers.push(function () {...}); }]
    with [var]: one binding [cell] for the whole function, which every
    closure captures and [i++] updates. *)
Fixpoint varLoop (fuel : nat) (bound : Z) (cell : nat) (hs : Handlers)
  : Handlers :=
  match fuel with
  | O => hs
  | S fuel' =>
      match cells hs !! cell with
      | Some i =>
          if i <? bound then
            varLoop fuel' bound cell
              {| handlers := handlers hs ++ [cell];
                 cells := <[cell := i + 1]> (cells hs) |}
          else hs
      | None => hs
      end
  end.

(** The same loop with [let]: every iteration has a binding of its own;
    the closure captures the binding of its iteration, and the next
    iteration starts on a copy, which [i++] updates. *)
Fixpoint letLoop (fuel : nat) (bound : Z) (cell : nat) (hs : Handlers)
  : Handlers :=
  match fuel with
  | O => hs
  | S fuel' =>
      match cells hs !! cell with
      | Some i =>
          if i <? bound then
            letLoop fuel' bound (length (cells hs))
              {| handlers := handlers hs ++ [cell];
                 cells := cells hs ++ [i + 1] |}
          else hs
      | None => hs
      end
  end.

(** The two functions for a loop bound [bound]; each [i < bound] is
    tested once more than the loop body runs. *)
Definition createHandlersWrongUpTo (bound : nat) : Handlers :=
  varLoop (S bound) (Z.of_nat bound) 0 {| handlers := []; cells := [0] |}.
Definition createHandlersCorrectUpTo (bound : nat) : Handlers :=
  letLoop (S bound) (Z.of_nat bound) 0 {| handlers := []; cells := [0] |}.

(** The source's loops run to 3. *)
Definition createHandlersWrong : Handlers := createHandlersWrongUpTo 3.
Definition createHandlersCorrect : Handlers := createHandlersCorrectUpTo 3.

End ClosureMore.

(* ===================================================================== *)
(** * Streams: the other examples of concepts/stream *)
(* ===================================================================== *)

Module StreamMore.
Import Stream.

(** ** 3. [NumberStream] *)

(** The fields [current] and [max]. *)
Record NumberStream : Type := { current : Z; max : Z }.

(** [new NumberStream(max)]: [current] starts at 1. *)
Definition newNumberStream (max : Z) : NumberStream :=
  {| current := 1; max := max |}.

(** [_read()]: push [String(this.current)] and step, or push [null].  A
    chunk is given as the number whose decimal text it is. *)
Definition _read (s : NumberStream) : option Z * NumberStream :=
  if current s <=? max s then
    (Some (current s), {| current := current s + 1; max := max s |})
  else (None, s).

(** The stream flowing: the runtime calls [_read] until it pushes [null],
    here at most [fuel] times.  The chunks of the "data" events, whether
    the stream has ended, and the stream. *)
Fixpoint flow (fuel : nat) (s : NumberStream) : list Z * bool * NumberStream :=
  match fuel with
  | O => ([], false, s)
  | S fuel' =>
      match _read s with
      | (Some chunk, s') =>
          let '(chunks, ended, s'') := flow fuel' s' in
          (chunk :: chunks, ended, s'')
      | (None, s') => ([], true, s')
      end
  end.

(** ** 6. [readLargeFile] *)

(** [s.split(sep)] for a one-character separator: the pieces between the
    separators, at least one piece. *)
Fixpoint split (sep : ascii) (s : string) : list string :=
  match s with
  | EmptyString => [EmptyString]
  | String c s' =>
      if Ascii.eqb c sep then EmptyString :: split sep s'
      else
        match split sep s' with
        | piece :: pieces => String c piece :: pieces
        | [] => [String c EmptyString]
        end
  end.

(** The "data" listener: [lineCount += chunk.split("\n").length - 1;] *)
Definition onData (lineCount : Z) (chunk : string) : Z :=
  lineCount + (Z.of_nat (length (split LF chunk)) - 1).

(** The [lineCount] that the "end" listener prints, the file having
    arrived as [chunks]. *)
Definition readLargeFile (chunks : list string) : Z :=
  foldl onData 0 chunks.

(** The text that a sequence of chunks makes up. *)
Definition joined (chunks : list string) : string :=
  foldr String.append EmptyString chunks.

End StreamMore.

(* ===================================================================== *)
(** * Blocking computation (concepts/blocking-vs-nonblocking-io) *)
(* ===================================================================== *)

Module Blocking.

(** [function calculateFibonacci(n) {
       if (n <= 1) return n;
       return calculateFibonacci(n - 1) + calculateFibonacci(n - 2); }]
    on integers; the worker's [fibonacci] is the same function.  The
    recursion descends on [n] as long as [n > 1]. *)
Equations calculateFibonacci (n : Z) : Z by wf (Z.to_nat n) lt :=
  calculateFibonacci n with Z_le_gt_dec n 1 := {
    | left _ => n
    | right _ => calculateFibonacci (n - 1) + calculateFibonacci (n - 2) }.
Next Obligation. lia. Qed.
Next Obligation. lia. Qed.

End Blocking.

(* ===================================================================== *)
(** * The Result-type demo: chaining and validation *)
(* ===================================================================== *)

Module Validation.
Import NeverThrow JsString.

(** The library's [map]: transform the value of an [ok]. *)
Definition map {T U E} (r : Result T E) (f : T -> U) : Result U E :=
  match r with ok v => ok (f v) | err e => err e end.

(** The library's [andThen]: the next step runs only on an [ok]. *)
Definition andThen {T U E} (r : Result T E) (f : T -> Result U E)
  : Result U E :=
  match r with ok v => f v | err e => err e end.

(** [type User = { id: number; name: string; age: number }] *)
Record User : Type := { id : number; name : string; age : number }.

(** [if (id === 1) return ok({ id: 1, name: "Alice", age: 30 });
     return err("User not found");] *)
Definition findUser (i : number) : Result User string :=
  if PrimFloat.eqb i 1%float
  then ok {| id := 1%float; name := "Alice"; age := 30%float |}
  else err "User not found".

(** [if (user.age >= 18) return ok(user); return err("User is under 18");] *)
Definition checkAge (user : User) : Result User string :=
  if PrimFloat.leb 18%float (age user) then ok user
  else err "User is under 18".

(** [findUser(i).andThen(checkAge).map((user) => user.name)]; the example
    evaluates it at 1. *)
Definition userName (i : number) : Result string string :=
  map (andThen (findUser i) checkAge) name.

(** The emails and passwords are strings whose characters the code
    classifies and counts: sequences of code units. *)

(** ["@"] and ["."] *)
Definition at_sign : N := 64%N.
Definition dot : N := 46%N.

(** The class [[^\s@]]: [\s] matches the white space of the language. *)
Definition plain (c : N) : bool :=
  negb (isWhiteSpace c) && negb (c =? at_sign)%N.

(** Whether every character of a string is in [[^\s@]]. *)
Fixpoint allPlain (s : jsstring) : bool :=
  match s with
  | [] => true
  | c :: s' => plain c && allPlain s'
  end.

(** [[^\s@]+\.[^\s@]+$] on what follows the "@": some characters of the
    class, a dot, and characters of the class to the end.  [seen] tells
    whether a character has been read already. *)
Fixpoint domainPart (seen : bool) (s : jsstring) : bool :=
  match s with
  | [] => false
  | c :: s' =>
      plain c &&
      ((seen && (c =? dot)%N && allPlain s' && truthy s')
       || domainPart true s')
  end.

(** [/^[^\s@]+@[^\s@]+\.[^\s@]+$/.test(email)]: characters of the class up
    to the first "@" ([seen]: at least one), then the domain part. *)
Fixpoint localPart (seen : bool) (s : jsstring) : bool :=
  match s with
  | [] => false
  | c :: s' =>
      if (c =? at_sign)%N then seen && domainPart false s'
      else plain c && localPart true s'
  end.

Definition emailRegex_test (email : jsstring) : bool := localPart false email.

(** [return emailRegex.test(email) ? ok(email) : err("Invalid email format");] *)
Definition validateEmail (email : jsstring) : Result jsstring string :=
  if emailRegex_test email then ok email else err "Invalid email format".

(** [type FormData = { email: string; password: string }] *)
Record FormData : Type := { email : jsstring; password : jsstring }.

(** [validateEmail(email).andThen((validEmail) =>
       validatePassword(password).map((validPassword) =>
         ({ email: validEmail, password: validPassword })))] *)
Definition validateForm (e p : jsstring) : Result FormData string :=
  andThen (validateEmail e) (fun validEmail =>
    map (validatePassword p) (fun validPassword =>
      {| email := validEmail; password := validPassword |})).

End Validation.

(* ===================================================================== *)
(** * Facts about binary64 comparison *)
(* ===================================================================== *)

Module FloatFacts.

(** A number up to the sign of zero: what [===] and SameValueZero see. *)
Definition unsigned_zero (f : spec_float) : spec_float :=
  match f with
  | S754_zero _ => S754_zero false
  | _ => f
  end.

Lemma compare_cont_Eq (m1 m2 : positive) :
  Pos.compare_cont Eq m1 m2 = Eq -> m1 = m2.
Proof. apply Pos.compare_eq. Qed.

(** [SFeqb] holds of two numbers that are equal and not NaN, or both a
    zero. *)
Lemma SFeqb_true (f1 f2 : spec_float) :
  SFeqb f1 f2 = true <->
  f1 <> S754_nan /\ unsigned_zero f1 = unsigned_zero f2.
Proof.
  unfold SFeqb. split.
  - destruct f1 as [s1|s1| |s1 m1 e1], f2 as [s2|s2| |s2 m2 e2];
      simpl; try discriminate; try (destruct s1; discriminate);
      try (destruct s2; discriminate).
    + intros _. split; [discriminate | reflexivity].
    + destruct s1, s2; try discriminate; intros _; (split; [discriminate | reflexivity]).
    + destruct s1, s2; try discriminate;
        (destruct (Z.compare e1 e2) eqn:He; try discriminate);
        apply Z.compare_eq in He; subst e2;
        (destruct (Pos.compare_cont Eq m1 m2) eqn:Hm; try discriminate);
        apply compare_cont_Eq in Hm; subst m2; intros _;
        (split; [discriminate | reflexivity]).
  - intros [Hnan Heq].
    destruct f1 as [s1|s1| |s1 m1 e1], f2 as [s2|s2| |s2 m2 e2];
      simpl in *; try discriminate; try congruence; try reflexivity.
    + injection Heq as ->. destruct s2; reflexivity.
    + injection Heq as -> -> ->.
      destruct s2; rewrite Z.compare_refl;
        change (Pos.compare_cont Eq m2 m2) with (Pos.compare m2 m2);
        rewrite Pos.compare_refl; reflexivity.
Qed.

(** [x === y] on numbers. *)
Lemma eqb_true (x y : number) :
  PrimFloat.eqb x y = true <->
  Prim2SF x <> S754_nan /\ unsigned_zero (Prim2SF x) = unsigned_zero (Prim2SF y).
Proof. rewrite FloatAxioms.eqb_spec. apply SFeqb_true. Qed.

Lemma is_nan_true (x : number) :
  PrimFloat.is_nan x = true <-> Prim2SF x = S754_nan.
Proof.
  unfold PrimFloat.is_nan. rewrite negb_true_iff, <- not_true_iff_false, eqb_true.
  split.
  - intros H. destruct (Prim2SF x); try reflexivity;
      exfalso; apply H; (split; [discriminate | reflexivity]).
  - intros -> [H _]. apply H. reflexivity.
Qed.

(** [b === 0] holds of the two zeros only. *)
Lemma eqb_zero (b : number) :
  PrimFloat.eqb b 0%float = true <-> b = 0%float \/ b = (-0)%float.
Proof.
  rewrite eqb_true. split.
  - intros [_ H].
    destruct (Prim2SF b) as [s| | |] eqn:Hb; try discriminate.
    rewrite <- (SF2Prim_Prim2SF b), Hb.
    destruct s; [right | left]; reflexivity.
  - intros [-> | ->]; (split; [discriminate | reflexivity]).
Qed.

End FloatFacts.

(* ===================================================================== *)
(** * Currying: results *)
(* ===================================================================== *)

Module CurryFacts.
Import Curry.

Example add_1_2_3 : add 1 2 3 = 6%float.
Proof. vm_compute. reflexivity. Qed.

Example addCurried_1_2_3 : addCurried 1 2 3 = 6%float.
Proof. vm_compute. reflexivity. Qed.

Example curriedSum_5_10 : curry2 sum 5%float 10%float tt = (15%float, tt).
Proof. vm_compute. reflexivity. Qed.

Example curriedAdd3_1_2_3 : curry3 add3 1%float 2%float 3%float tt = (6%float, tt).
Proof. vm_compute. reflexivity. Qed.

(** Partial application builds closures only: it is a function of the
    remaining arguments, whatever the store. *)
Lemma curry2_partial {S A B R} (fn : @Fn2 S A B R) (a : A) :
  curry2 fn a = fun b s => fn (a, b) s.
Proof. reflexivity. Qed.

(** C3.  Currying preserves results: [curry2 fn a b] is [fn (a, b)] and
    [curry3 fn a b c] is [fn (a, b, c)], in every store (same result, same
    final store), for every function and all arguments; and
    [addCurried a b c = add a b c = a + b + c] for all numbers. *)
Theorem curry_preserves_results :
  (forall (S A B R : Type) (fn : @Fn2 S A B R) (a : A) (b : B) (s : S),
      curry2 fn a b s = fn (a, b) s) /\
  (forall (S A B C R : Type) (fn : @Fn3 S A B C R) (a : A) (b : B) (c : C) (s : S),
      curry3 fn a b c s = fn (a, b, c) s) /\
  (forall a b c : number,
      addCurried a b c = add a b c /\ add a b c = (a + b + c)%float).
Proof.
  split; [|split].
  - intros S A B R fn a b s. unfold curry2. reflexivity.
  - intros S A B C R fn a b c s. unfold curry3. reflexivity.
  - intros a b c. unfold addCurried, add. split; reflexivity.
Qed.

End CurryFacts.

(* ===================================================================== *)
(** * The Result-type demo: results *)
(* ===================================================================== *)

Module NeverThrowFacts.
Import NeverThrow.

Example divide_10_2 : divide 10 2 = ok 5%float.
Proof. vm_compute. reflexivity. Qed.

Example divide_10_0 : divide 10 0 = err "Division by zero".
Proof. vm_compute. reflexivity. Qed.

Example divide_10_neg0 : divide 10 (-0) = err "Division by zero".
Proof. vm_compute. reflexivity. Qed.

Example divide_0_nan : divide 0 nan = ok nan.
Proof. vm_compute. reflexivity. Qed.

Lemma divide_cases (a b : number) :
  divide a b = if PrimFloat.eqb b 0%float then err "Division by zero"
               else ok (a / b)%float.
Proof. reflexivity. Qed.

(** C4.  [divide] is a total function into [Result]: for all numbers [a]
    and [b] it returns [err "Division by zero"] exactly when [b === 0]
    (that is, when [b] is one of the two zeros) and [ok (a / b)] exactly
    otherwise; no pair of numbers is left without a result; and
    [divide(10, 0).unwrapOr(0)] is [0]. *)
Theorem divide_total_and_correct :
  forall a b : number,
    (divide a b = err "Division by zero" <-> PrimFloat.eqb b 0%float = true) /\
    (PrimFloat.eqb b 0%float = true <-> b = 0%float \/ b = (-0)%float) /\
    (divide a b = ok (a / b)%float <-> PrimFloat.eqb b 0%float = false) /\
    (isErr (divide a b) = PrimFloat.eqb b 0%float) /\
    (isOk (divide a b) = negb (PrimFloat.eqb b 0%float)) /\
    unwrapOr (divide 10 0) 0%float = 0%float.
Proof.
  intros a b. rewrite divide_cases.
  split; [|split; [apply FloatFacts.eqb_zero|]];
    destruct (PrimFloat.eqb b 0%float) eqn:Hb.
  - split; reflexivity.
  - split; discriminate.
  - repeat split; try reflexivity; discriminate.
  - repeat split; reflexivity.
Qed.

(** Three values a promise of [fetchUser] can reject with: the [TypeError]
    of a failed [fetch]; the object [{ status: 404 }] that the example
    throws; the [SyntaxError] of a body that is not JSON. *)
Definition fetchFailed : Thrown :=
  {| instanceof_TypeError := true; message_of := "fetch failed";
     is_object := true; status_of := None;
     String_of := "TypeError: fetch failed" |}.
Definition notFound : Thrown :=
  {| instanceof_TypeError := false; message_of := "";
     is_object := true; status_of := Some 404%float;
     String_of := "[object Object]" |}.
Definition badJson : Thrown :=
  {| instanceof_TypeError := false; message_of := "Unexpected token";
     is_object := true; status_of := None;
     String_of := "SyntaxError: Unexpected token" |}.

(** C6, as stated, says the repository's code puts failures into no
    categories of its own.  The error mapper of [fetchUser] sends three
    failures to three different values of the repository's type
    [ApiError], told apart by their [type]. *)
Lemma fetchUser_classifies_failures :
  mapError fetchFailed = network "fetch failed" /\
  mapError notFound = http 404%float /\
  mapError badJson = parse "SyntaxError: Unexpected token" /\
  type_ (mapError fetchFailed) <> type_ (mapError notFound) /\
  type_ (mapError notFound) <> type_ (mapError badJson) /\
  type_ (mapError fetchFailed) <> type_ (mapError badJson).
Proof. repeat split; try reflexivity; discriminate. Qed.

(** C6, amended.  Every failure the examples surface is an [err] value of
    the Result type: [fetchUser] turns every rejection into [err] of an
    [ApiError], and [divide] and [validatePassword] fail with [err] of a
    fixed message.  But the [ApiError] is a taxonomy of the repository's
    own: a rejection is "network" when it is a [TypeError], otherwise
    "http" when it is an object with a [status], otherwise "parse"; the
    handler prints one line per category; and each category occurs. *)
Theorem errors_are_results_with_own_taxonomy :
  (forall (T : Type) (error : Thrown),
      @fromPromise T (inr error) = err (mapError error)) /\
  (forall error : Thrown,
      type_ (mapError error) =
        if instanceof_TypeError error then "network"
        else if is_object error && bool_decide (is_Some (status_of error))
             then "http" else "parse") /\
  (forall error : Thrown,
      reportError (mapError error) =
        if String.eqb (type_ (mapError error)) "network" then "Connection failed:"
        else if String.eqb (type_ (mapError error)) "http" then "HTTP error:"
        else "Parse error:") /\
  (exists e1 e2 e3 : Thrown,
      type_ (mapError e1) = "network" /\ type_ (mapError e2) = "http" /\
      type_ (mapError e3) = "parse") /\
  (forall a b : number,
      isErr (divide a b) = true -> divide a b = err "Division by zero") /\
  (forall password : JsString.jsstring,
      isErr (validatePassword password) = true ->
      validatePassword password = err "Password must be at least 8 characters").
Proof.
  split; [|split; [|split; [|split; [|split]]]].
  - intros T error. reflexivity.
  - intros [isT msg isO [status|] str]; destruct isT, isO; reflexivity.
  - intros [isT msg isO [status|] str]; destruct isT, isO; reflexivity.
  - exists fetchFailed, notFound, badJson. repeat split.
  - intros a b. rewrite divide_cases.
    destruct (PrimFloat.eqb b 0%float); [reflexivity | discriminate].
  - intros password. unfold validatePassword.
    destruct (8 <=? Z.of_nat (length password)); [discriminate | reflexivity].
Qed.

End NeverThrowFacts.

(* ===================================================================== *)
(** * Closures: the counter and the calculator *)
(* ===================================================================== *)

Module CounterFacts.
Import Closure.

(** The example's four calls print 1, 2, 1, 1. *)
Example counter_example :
  fst (runCounter [Increment; Increment; Decrement; GetCount] createCounter)
  = [1; 2; 1; 1].
Proof. reflexivity. Qed.

Lemma countIf_app {A} (p : A -> bool) (l1 l2 : list A) :
  countIf p (l1 ++ l2) = countIf p l1 + countIf p l2.
Proof. induction l1 as [|x l1 IH]; simpl; [reflexivity | rewrite IH; lia]. Qed.

Lemma countIf_nonneg {A} (p : A -> bool) (l : list A) : 0 <= countIf p l.
Proof. induction l as [|x l IH]; simpl; [lia | destruct (p x); lia]. Qed.

Lemma countIf_le_length {A} (p : A -> bool) (l : list A) :
  countIf p l <= Z.of_nat (length l).
Proof. induction l as [|x l IH]; simpl length; simpl countIf; [lia | destruct (p x); lia]. Qed.

(** What one call does to [count]. *)
Definition delta (m : CounterMethod) : Z :=
  match m with Increment => 1 | Decrement => -1 | GetCount => 0 end.

Lemma callCounter_count (m : CounterMethod) (c : Counter) :
  fst (callCounter m c) = count c + delta m /\
  count (snd (callCounter m c)) = count c + delta m.
Proof. destruct m; simpl; split; lia. Qed.

Lemma delta_counts (m : CounterMethod) :
  delta m = (if isIncrement m then 1 else 0) - (if isDecrement m then 1 else 0).
Proof. destruct m; reflexivity. Qed.

(** After any calls, [count] has moved by the increments minus the
    decrements. *)
Lemma runCounter_count (ms : list CounterMethod) (c : Counter) :
  count (snd (runCounter ms c)) = count c + increments ms - decrements ms.
Proof.
  revert c. induction ms as [|m ms IH]; intros c.
  - unfold increments, decrements. simpl. lia.
  - simpl. destruct (callCounter m c) as [r c'] eqn:Hcall.
    specialize (IH c'). destruct (runCounter ms c') as [rs c''] eqn:Hrun.
    simpl in *. rewrite IH.
    pose proof (callCounter_count m c) as [_ Hc]. rewrite Hcall in Hc. simpl in Hc.
    rewrite Hc, delta_counts. unfold increments, decrements. simpl. lia.
Qed.

(** Every call returns one value. *)
Lemma runCounter_length (ms : list CounterMethod) (c : Counter) :
  length (fst (runCounter ms c)) = length ms.
Proof.
  revert c. induction ms as [|m ms IH]; intros c; [reflexivity|].
  simpl. destruct (callCounter m c) as [r c']. specialize (IH c').
  destruct (runCounter ms c') as [rs c'']. simpl in *. congruence.
Qed.

(** C8.  On a counter made by [createCounter], after any sequence [ms] of
    calls of its methods: [getCount()] returns the number of increments
    minus the number of decrements in [ms]; [increment()] returns that
    difference plus one and [decrement()] that difference minus one; and
    the object handed out has the three methods and nothing else, so
    [counter.count] is undefined and [count] is reached through them
    only. *)
Theorem counter_counts_calls :
  forall ms : list CounterMethod,
    let c := snd (runCounter ms createCounter) in
    let difference := increments ms - decrements ms in
    fst (getCount c) = difference /\
    fst (increment c) = difference + 1 /\
    fst (decrement c) = difference - 1 /\
    count (snd (increment c)) = difference + 1 /\
    count (snd (decrement c)) = difference - 1 /\
    snd (getCount c) = c /\
    (forall name : string,
        counterObject !! name =
          if String.eqb name "increment" then Some Increment
          else if String.eqb name "decrement" then Some Decrement
          else if String.eqb name "getCount" then Some GetCount
          else None) /\
    counterObject !! "count" = None.
Proof.
  intros ms c difference.
  assert (Hc : count c = difference).
  { unfold c, difference. rewrite runCounter_count. simpl. lia. }
  repeat split; simpl; try lia.
  intros name. unfold counterObject.
  destruct (String.eqb name "increment") eqn:H1.
  { apply String.eqb_eq in H1 as ->. apply lookup_insert_eq. }
  apply String.eqb_neq in H1. rewrite lookup_insert_ne by congruence.
  destruct (String.eqb name "decrement") eqn:H2.
  { apply String.eqb_eq in H2 as ->. apply lookup_insert_eq. }
  apply String.eqb_neq in H2. rewrite lookup_insert_ne by congruence.
  destruct (String.eqb name "getCount") eqn:H3.
  { apply String.eqb_eq in H3 as ->. apply lookup_insert_eq. }
  apply String.eqb_neq in H3. rewrite lookup_insert_ne by congruence.
  apply lookup_empty.
Qed.

(** The calculator example: [add(5, 3)], [subtract(10, 4)], then
    [getLastResult()] is 6. *)
Example calculator_example :
  let s1 := snd (calc_add 5 3 Calculator) in
  let s2 := snd (calc_subtract 10 4 s1) in
  fst (getLastResult s2) = 6%float /\
  console s2 = [ {| operation := "Addition"; logged := 8%float |};
                 {| operation := "Subtraction"; logged := 6%float |} ].
Proof. vm_compute. split; reflexivity. Qed.

End CounterFacts.

(* ===================================================================== *)
(** * Facts about comparing numbers with whole numbers *)
(* ===================================================================== *)

Module NumFacts.
Import Num.

Lemma lt_Finite (a b : Q) : lt (Finite a) (Finite b) = true <-> (a < b)%Q.
Proof.
  simpl. rewrite negb_true_iff, <- not_true_iff_false, Qle_bool_iff.
  split; [apply Qnot_le_lt | apply Qlt_not_le].
Qed.

Lemma lt_Finite_false (a b : Q) : lt (Finite a) (Finite b) = false <-> (b <= a)%Q.
Proof. simpl. rewrite negb_false_iff. apply Qle_bool_iff. Qed.

Lemma le_Finite (a b : Q) : le (Finite a) (Finite b) = true <-> (a <= b)%Q.
Proof. simpl. apply Qle_bool_iff. Qed.

Lemma le_Finite_false (a b : Q) : le (Finite a) (Finite b) = false <-> (b < a)%Q.
Proof.
  simpl. rewrite <- not_true_iff_false, Qle_bool_iff.
  split; [apply Qnot_le_lt | apply Qlt_not_le].
Qed.

(** On whole numbers the comparisons are those of [Z]. *)
Lemma lt_ofZ (a b : Z) : lt (ofZ a) (ofZ b) = (a <? b).
Proof.
  unfold ofZ. destruct (a <? b) eqn:H.
  - apply lt_Finite. apply Z.ltb_lt in H. rewrite <- Zlt_Qlt. exact H.
  - apply lt_Finite_false. apply Z.ltb_ge in H. rewrite <- Zle_Qle. exact H.
Qed.

Lemma le_ofZ (a b : Z) : le (ofZ a) (ofZ b) = (a <=? b).
Proof.
  unfold ofZ. destruct (a <=? b) eqn:H.
  - apply le_Finite. apply Z.leb_le in H. rewrite <- Zle_Qle. exact H.
  - apply le_Finite_false. apply Z.leb_gt in H. rewrite <- Zlt_Qlt. exact H.
Qed.

(** Numbers of the same value compare alike. *)
Lemma same_lt (x y : Num) (t : Z) :
  same x y = true -> lt (ofZ t) x = lt (ofZ t) y.
Proof.
  destruct x as [a| | |], y as [b| | |]; try discriminate; try reflexivity.
  unfold same. rewrite Qeq_bool_iff. intros Hab. unfold ofZ.
  destruct (lt (Finite (inject_Z t)) (Finite b)) eqn:Hb.
  - apply lt_Finite. apply lt_Finite in Hb. lra.
  - apply lt_Finite_false. apply lt_Finite_false in Hb. lra.
Qed.

(** What is below a number stays below it when it gets smaller. *)
Lemma lt_earlier (x : Num) (a b : Z) :
  a <= b -> lt (ofZ b) x = true -> lt (ofZ a) x = true.
Proof.
  intros Hab. destruct x as [q| | |]; try (intros H; exact H).
  unfold ofZ. rewrite !lt_Finite. rewrite Zle_Qle in Hab. lra.
Qed.

(** A timestamp that is older than the window at one reading of the
    clock is older than the window at every later reading. *)
Lemma older_later (w : Num) (b now t : Z) :
  b <= now ->
  lt (ofZ t) (minus (ofZ b) w) = true -> lt (ofZ t) (minus (ofZ now) w) = true.
Proof.
  intros Hb. destruct w as [q| | |]; try (intros H; exact H).
  unfold ofZ. cbn [minus]. rewrite !lt_Finite. rewrite Zle_Qle in Hb. lra.
Qed.

(** [<] and [<=] are each other's opposite, NaN apart. *)
Lemma not_lt_le (x : Num) (t : Z) :
  x <> NaN -> lt (ofZ t) x = false -> le x (ofZ t) = true.
Proof.
  destruct x as [q| | |]; try (intros; reflexivity); try discriminate.
  - intros _. unfold ofZ. rewrite lt_Finite_false, le_Finite. tauto.
  - intros H. contradiction.
Qed.

Lemma lt_not_le (x : Num) (t : Z) :
  lt (ofZ t) x = true -> le x (ofZ t) = false.
Proof.
  destruct x as [q| | |]; try (intros; reflexivity); try discriminate.
  unfold ofZ. rewrite lt_Finite, le_Finite_false. tauto.
Qed.

Lemma minus_not_NaN (now : Z) (w : Num) : w <> NaN -> minus (ofZ now) w <> NaN.
Proof. destruct w; simpl; congruence. Qed.

(** A count that is below a number is below every whole number the
    number does not exceed. *)
Lemma lt_le_bound (m : Num) (n k : Z) :
  lt (ofZ n) m = true -> le m (ofZ k) = true -> n < k.
Proof.
  destruct m as [q| | |]; try discriminate.
  unfold ofZ. rewrite lt_Finite, le_Finite. intros H1 H2.
  rewrite Zlt_Qlt. lra.
Qed.

(** With a window that is not negative, the present is not older than
    the window. *)
Lemma now_not_older (w : Num) (now : Z) :
  lt w (ofZ 0) = false -> lt (ofZ now) (minus (ofZ now) w) = false.
Proof.
  destruct w as [q| | |]; try (intros; reflexivity); try discriminate.
  unfold ofZ. cbn [minus]. rewrite !lt_Finite_false. intros H.
  change (inject_Z 0) with 0%Q in H. lra.
Qed.

(** A number that is at least one is above zero. *)
Lemma at_least_one (m : Num) : le (ofZ 1) m = true -> lt (ofZ 0) m = true.
Proof.
  destruct m as [q| | |]; try discriminate; try reflexivity.
  unfold ofZ. rewrite le_Finite, lt_Finite.
  change (inject_Z 1) with 1%Q. change (inject_Z 0) with 0%Q. lra.
Qed.

(** A timestamp inside a stretch of [w] milliseconds that also holds a
    later reading [now] is inside the window at [now]. *)
Lemma stretch_in_window (w : Num) (t0 t now : Z) :
  t0 <= t ->
  le (ofZ now) (plus (ofZ t0) w) = true ->
  le (minus (ofZ now) w) (ofZ t) = true.
Proof.
  intros Ht. destruct w as [q| | |]; try discriminate; try reflexivity.
  unfold ofZ. cbn [plus minus]. rewrite !le_Finite. rewrite Zle_Qle in Ht. lra.
Qed.

(** ** Rounding leaves whole numbers as they are *)

Lemma nearestEven_1 (n : Z) : nearestEven n 1 = n.
Proof. unfold nearestEven. rewrite Z.mod_1_r, Z.div_1_r. reflexivity. Qed.

Lemma ilog2_whole (a : Z) : 0 < a -> ilog2 a 1 = Z.log2 a.
Proof.
  intros Ha. unfold ilog2. change (Z.log2 1) with 0. rewrite Z.sub_0_r.
  pose proof (Z.log2_nonneg a) as Hnn.
  destruct (0 <=? Z.log2 a) eqn:H0; [|apply Z.leb_gt in H0; lia].
  pose proof (Z.log2_spec a Ha) as [Hlow _].
  assert (H : (1 * 2 ^ Z.log2 a <=? a) = true) by (apply Z.leb_le; lia).
  rewrite H. reflexivity.
Qed.

Lemma round64_whole (z : Z) :
  Z.abs z < 2 ^ 53 -> same (round64 (inject_Z z)) (Finite (inject_Z z)) = true.
Proof.
  intros Hz. unfold round64, inject_Z. cbn [Qnum Qden].
  destruct (z =? 0) eqn:H0.
  - apply Z.eqb_eq in H0 as ->. reflexivity.
  - apply Z.eqb_neq in H0.
    assert (Ha : 0 < Z.abs z) by lia.
    rewrite (ilog2_whole _ Ha).
    pose proof (Z.log2_nonneg (Z.abs z)) as Hnn.
    assert (Hl : Z.log2 (Z.abs z) < 53).
    { apply Z.log2_lt_pow2; [exact Ha | exact Hz]. }
    set (l := Z.log2 (Z.abs z)) in *.
    assert (He : Z.max (l - 52) (-1074) = l - 52) by lia.
    rewrite He.
    assert (Hover : (971 <? l - 52) = false) by (apply Z.ltb_ge; lia).
    assert (Hover' : (l - 52 =? 971) = false) by (apply Z.eqb_neq; lia).
    rewrite Hover, Hover'. cbn [orb andb].
    destruct (0 <=? l - 52) eqn:Hsign.
    + apply Z.leb_le in Hsign. assert (l - 52 = 0) as -> by lia.
      change (1 * 2 ^ 0) with 1. rewrite nearestEven_1.
      unfold same. apply Qeq_bool_iff. unfold pow2.
      change (0 <=? 0) with true. cbv iota. change (2 ^ 0) with 1.
      unfold Qeq, Qmult, inject_Z. cbn [Qnum Qden].
      rewrite Pos.mul_1_l. lia.
    + apply Z.leb_gt in Hsign. rewrite nearestEven_1.
      unfold same. apply Qeq_bool_iff. unfold pow2.
      assert (Hneg : (0 <=? l - 52) = false) by (apply Z.leb_gt; lia).
      rewrite Hneg. unfold Qeq, Qmult, inject_Z. cbn [Qnum Qden].
      assert (Hp : 0 < 2 ^ (- (l - 52))) by (apply Z.pow_pos_nonneg; lia).
      rewrite Pos.mul_1_l, Z2Pos.id by exact Hp.
      nia.
Qed.

(** So binary64 takes the difference of two whole numbers exactly, as
    long as it is of magnitude below 2^53. *)
Lemma sub_whole (a b : Z) :
  Z.abs (a - b) < 2 ^ 53 ->
  same (sub (ofZ a) (ofZ b)) (minus (ofZ a) (ofZ b)) = true.
Proof.
  intros Hab. unfold ofZ. cbn [sub minus].
  assert (Heq : (inject_Z a - inject_Z b)%Q = inject_Z (a - b)).
  { unfold Qminus, Qplus, Qopp, inject_Z. cbn [Qnum Qden].
    f_equal. ring. }
  rewrite Heq. apply round64_whole, Hab.
Qed.

(** It does so when an infinity or NaN is taken away, too. *)
Lemma sub_not_finite (now : Z) (w : Num) :
  (forall q, w <> Finite q) ->
  same (sub (ofZ now) w) (minus (ofZ now) w) = true.
Proof.
  destruct w as [q| | |]; intros H; try reflexivity.
  exfalso. exact (H q eq_refl).
Qed.

(** The rounding at work, against the subtraction of the machine's
    binary64 numbers: it is exact at 0.5 ms from a clock reading and
    inexact at 1 - 2^-53 from 2, at a tie, in the subnormal range, and
    beyond the largest number. *)
Example round64_is_binary64 :
  forallb (fun '(a, b) =>
             same (ofFloat (a - b)%float) (sub (ofFloat a) (ofFloat b)))
    [(1762000000000, 0.5); (1762000000001, 0x1.fffeb074a771dp-1);
     (2, 0x1.fffffffffffffp-1); (0x1.999999999999ap-4, 0x1.999999999999ap-3);
     (0x1.1ccf385ebc8ap+1023, -0x1.1ccf385ebc8ap+1023);
     (0x0.0000000000001p-1022, 0x0.0000000000003p-1022);
     (0x0.00000000007e8p-1022, 0x0.000000000025fp-1022);
     (9007199254740992, 1); (9007199254740992, -1); (9007199254740992, -3);
     (1.5, 1.5); (4000000000000000, 0.25); (0x1p+60, 1); (1, 0x1p-60);
     (infinity, 1); (1, infinity); (infinity, infinity); (nan, 1)]%float
  = true.
Proof. vm_compute. reflexivity. Qed.

End NumFacts.

(* ===================================================================== *)
(** * Closures: the rate limiter *)
(* ===================================================================== *)

Module RateLimiterFacts.
Import Closure.
Import Num.

(** Clock readings that never go back. *)
Fixpoint nondecreasing (l : list Z) : bool :=
  match l with
  | a :: (b :: _) as rest => (a <=? b) && nondecreasing rest
  | _ => true
  end.

Lemma nondecreasing_cons (a : Z) (l : list Z) :
  nondecreasing (a :: l) = true ->
  nondecreasing l = true /\ Forall (fun t => a <= t) l.
Proof.
  revert a. induction l as [|b l IH]; intros a H.
  - split; [reflexivity | constructor].
  - simpl in H. apply andb_true_iff in H as [Hab Hl].
    apply Z.leb_le in Hab. split; [exact Hl|].
    constructor; [exact Hab|].
    destruct (IH b Hl) as [_ Hall].
    eapply Forall_impl; [exact Hall | intros t Ht; simpl in Ht; lia].
Qed.

Lemma nondecreasing_snoc (l : list Z) (now : Z) :
  nondecreasing l = true -> Forall (fun t => t <= now) l ->
  nondecreasing (l ++ [now]) = true.
Proof.
  induction l as [|a l IH]; intros Hs Hall; [reflexivity|].
  apply Forall_cons in Hall as [Ha Hall].
  destruct l as [|b l].
  - simpl. apply andb_true_iff. split; [apply Z.leb_le; exact Ha | reflexivity].
  - simpl in Hs. apply andb_true_iff in Hs as [Hab Hl].
    change (nondecreasing ((a :: b :: l) ++ [now]))
      with ((a <=? b) && nondecreasing ((b :: l) ++ [now])).
    apply andb_true_iff. split; [exact Hab | apply IH; assumption].
Qed.

(** The loop that drops old calls splits the array in two: what it took
    from the front is older than the threshold; on a sorted array what it
    kept is not. *)
Lemma dropOld_split (threshold : Num) (l : list Z) :
  exists dropped,
    l = dropped ++ dropOld threshold l /\
    Forall (fun t => lt (ofZ t) threshold = true) dropped /\
    (nondecreasing l = true ->
       nondecreasing (dropOld threshold l) = true /\
       Forall (fun t => lt (ofZ t) threshold = false) (dropOld threshold l)).
Proof.
  induction l as [|a l IH].
  - exists []. repeat split; constructor.
  - cbn [dropOld]. destruct (lt (ofZ a) threshold) eqn:Ha.
    + destruct IH as (dropped & Heq & Hold & Hkept).
      exists (a :: dropped). split; [cbn [app]; congruence|]. split.
      * constructor; assumption.
      * intros Hs. apply nondecreasing_cons in Hs as [Hs _]. auto.
    + exists []. split; [reflexivity|].
      split; [constructor|]. intros Hs. split; [exact Hs|].
      constructor; [exact Ha|].
      apply nondecreasing_cons in Hs as [_ Hall].
      eapply Forall_impl; [exact Hall|]. intros t Ht. simpl in Ht.
      destruct (lt (ofZ t) threshold) eqn:Hlt; [|reflexivity].
      rewrite (NumFacts.lt_earlier threshold a t Ht Hlt) in Ha. discriminate.
Qed.

Lemma dropOld_length (threshold : Num) (l : list Z) :
  (length (dropOld threshold l) <= length l)%nat.
Proof.
  induction l as [|a l IH]; cbn [dropOld length]; [lia|].
  destruct (lt (ofZ a) threshold); cbn [length]; lia.
Qed.

Lemma countIf_none {A} (p : A -> bool) (l : list A) :
  Forall (fun x => p x = false) l -> countIf p l = 0.
Proof. induction 1 as [|x l Hx _ IH]; simpl; [reflexivity | rewrite Hx, IH; reflexivity]. Qed.

Lemma countIf_all {A} (p : A -> bool) (l : list A) :
  Forall (fun x => p x = true) l -> countIf p l = Z.of_nat (length l).
Proof. induction 1 as [|x l Hx _ IH]; simpl length; simpl countIf; [reflexivity | rewrite Hx, IH; lia]. Qed.

Section Limiter.
Context {W A R : Type}.
Variables maxCalls windowMs : Num.
Variable fn : A -> W -> R * W.

Local Abbreviation limited := (limited maxCalls windowMs fn).
Local Abbreviation runLimited := (runLimited maxCalls windowMs fn).
Local Abbreviation recorded := (recorded maxCalls windowMs fn).

(** The two outcomes of a call. *)
Lemma limited_cases (now : Z) (args : A) (st : Limiter) (w : W) :
  let kept := dropOld (sub (ofZ now) windowMs) (calls st) in
  (lt (ofZ (Z.of_nat (length kept))) maxCalls = true /\
   limited now args st w =
     (Returned (fst (fn args w)),
      {| calls := kept ++ [now]; refusals := refusals st |},
      snd (fn args w))) \/
  (lt (ofZ (Z.of_nat (length kept))) maxCalls = false /\
   limited now args st w =
     (Null, {| calls := kept; refusals := S (refusals st) |}, w)).
Proof.
  intros kept. unfold Closure.limited. fold kept.
  destruct (lt (ofZ (Z.of_nat (length kept))) maxCalls) eqn:Hlt.
  - left. split; [reflexivity|]. destruct (fn args w); reflexivity.
  - right. split; reflexivity.
Qed.

(** What links the array [calls] to everything recorded so far, when no
    reading up to now exceeded [b]: the array is the tail of the record,
    sorted, and what was dropped is older than the window at [b]. *)
Definition linked (history : list Z) (st : Limiter) (b : Z) : Prop :=
  exists old,
    history = old ++ calls st /\
    Forall (fun t => lt (ofZ t) (minus (ofZ b) windowMs) = true) old /\
    nondecreasing (calls st) = true /\
    Forall (fun t => t <= b) (calls st).

Lemma linked_later (history : list Z) (st : Limiter) (b b' : Z) :
  b <= b' -> linked history st b -> linked history st b'.
Proof.
  intros Hb (old & Heq & Hold & Hs & Hle).
  exists old. repeat split; try assumption.
  - eapply Forall_impl; [exact Hold|]. intros t Ht. simpl in Ht.
    exact (NumFacts.older_later windowMs b b' t Hb Ht).
  - eapply Forall_impl; [exact Hle | intros t Ht; simpl in Ht; lia].
Qed.

(** Where the difference [now - windowMs] is exact, the loop's test is
    the test against the window's start. *)
Lemma older_exact (now t : Z) :
  exactAt windowMs now = true ->
  lt (ofZ t) (sub (ofZ now) windowMs) = lt (ofZ t) (minus (ofZ now) windowMs).
Proof. intros Hexact. apply NumFacts.same_lt, Hexact. Qed.

(** With the array linked to the record, the entries kept are exactly
    the recorded timestamps inside the window. *)
Lemma kept_is_window (history : list Z) (st : Limiter) (b now : Z) :
  windowMs <> NaN -> exactAt windowMs now = true ->
  b <= now -> linked history st b ->
  countInWindow windowMs now history
  = Z.of_nat (length (dropOld (sub (ofZ now) windowMs) (calls st))).
Proof.
  intros Hw Hexact Hb (old & Heq & Hold & Hs & Hle).
  destruct (dropOld_split (sub (ofZ now) windowMs) (calls st))
    as (dropped & Hsplit & Hdropped & Hkept).
  destruct (Hkept Hs) as [_ Hge].
  assert (Hle' : Forall (fun t => t <= b)
                   (dropOld (sub (ofZ now) windowMs) (calls st))).
  { rewrite Hsplit in Hle. apply Forall_app in Hle as [_ Hle]. exact Hle. }
  unfold countInWindow. rewrite Heq, CounterFacts.countIf_app.
  rewrite Hsplit at 1. rewrite CounterFacts.countIf_app.
  rewrite (countIf_none _ old), (countIf_none _ dropped), (countIf_all _ (dropOld _ _)).
  - lia.
  - apply Forall_forall. intros t Ht.
    pose proof (proj1 (Forall_forall _ _) Hge t Ht) as H1.
    pose proof (proj1 (Forall_forall _ _) Hle' t Ht) as H2.
    simpl in H1, H2. unfold inWindow. apply andb_true_iff. split.
    + apply NumFacts.not_lt_le; [apply NumFacts.minus_not_NaN, Hw|].
      rewrite <- (older_exact now t Hexact). exact H1.
    + apply Z.leb_le. lia.
  - eapply Forall_impl; [exact Hdropped|]. intros t Ht. simpl in Ht.
    unfold inWindow. apply andb_false_iff. left.
    apply NumFacts.lt_not_le. rewrite <- (older_exact now t Hexact). exact Ht.
  - eapply Forall_impl; [exact Hold|]. intros t Ht. simpl in Ht.
    unfold inWindow. apply andb_false_iff. left.
    apply NumFacts.lt_not_le. exact (NumFacts.older_later windowMs b now t Hb Ht).
Qed.

(** A call at a reading that is not earlier keeps the link. *)
Lemma limited_linked (history : list Z) (st : Limiter) (b now : Z)
      (args : A) (w : W) :
  exactAt windowMs now = true ->
  b <= now -> linked history st b ->
  let r := limited now args st w in
  linked (history ++ (if wentThrough r.1.1 then [now] else [])) r.1.2 now.
Proof.
  intros Hexact Hb (old & Heq & Hold & Hs & Hle).
  destruct (dropOld_split (sub (ofZ now) windowMs) (calls st))
    as (dropped & Hsplit & Hdropped & Hkept).
  destruct (Hkept Hs) as [Hs' Hge].
  assert (Hle' : Forall (fun t => t <= now)
                   (dropOld (sub (ofZ now) windowMs) (calls st))).
  { rewrite Hsplit in Hle. apply Forall_app in Hle as [_ Hle].
    eapply Forall_impl; [exact Hle | intros t Ht; simpl in Ht; lia]. }
  assert (Hold' : Forall (fun t => lt (ofZ t) (minus (ofZ now) windowMs) = true)
                    (old ++ dropped)).
  { apply Forall_app. split.
    - eapply Forall_impl; [exact Hold|]. intros t Ht. simpl in Ht.
      exact (NumFacts.older_later windowMs b now t Hb Ht).
    - eapply Forall_impl; [exact Hdropped|]. intros t Ht. simpl in Ht.
      rewrite <- (older_exact now t Hexact). exact Ht. }
  destruct (limited_cases now args st w) as [[_ ->] | [_ ->]]; simpl.
  - exists (old ++ dropped). repeat split.
    + rewrite Heq. rewrite Hsplit at 1. rewrite <- !app_assoc. reflexivity.
    + exact Hold'.
    + apply nondecreasing_snoc; assumption.
    + apply Forall_app. split; [exact Hle'|]. constructor; [lia | constructor].
  - exists (old ++ dropped). repeat split; try assumption.
    rewrite app_nil_r, Heq. rewrite Hsplit at 1. rewrite <- app_assoc. reflexivity.
Qed.

(** A run at readings that never go back, with exact differences,
    keeps the link. *)
Lemma runLimited_linked (cs : list (Z * A)) :
  forall (history : list Z) (st : Limiter) (w : W) (b last : Z),
    linked history st b ->
    nondecreasing (b :: map fst cs ++ [last]) = true ->
    forallb (exactAt windowMs) (map fst cs) = true ->
    linked (history ++ recorded cs st w) (runLimited cs st w).1.2 last.
Proof.
  induction cs as [|[now args] cs IH]; intros history st w b last Hl Hs Hex.
  - simpl. rewrite app_nil_r. apply linked_later with b; [|exact Hl].
    simpl in Hs. apply andb_true_iff in Hs as [Hs _]. apply Z.leb_le, Hs.
  - change (nondecreasing (b :: now :: map fst cs ++ [last]))
      with ((b <=? now) && nondecreasing (now :: map fst cs ++ [last])) in Hs.
    apply andb_true_iff in Hs as [Hb Hs]. apply Z.leb_le in Hb.
    cbn [map fst forallb] in Hex. apply andb_true_iff in Hex as [Hnow Hex].
    pose proof (limited_linked history st b now args w Hnow Hb Hl) as Hstep.
    simpl in Hstep. simpl.
    destruct (limited now args st w) as [[r st'] w'] eqn:Hcall. simpl in Hstep.
    specialize (IH _ st' w' now last Hstep Hs Hex).
    destruct (runLimited cs st' w') as [[rs st''] w''] eqn:Hrun.
    simpl in *. rewrite <- app_assoc in IH. exact IH.
Qed.

(** The array never grows past a whole number that [maxCalls] does not
    exceed, on any clock. *)
Lemma limited_bound (k now : Z) (args : A) (st : Limiter) (w : W) :
  le maxCalls (ofZ k) = true ->
  Z.of_nat (length (calls st)) <= k ->
  Z.of_nat (length (calls (limited now args st w).1.2)) <= k.
Proof.
  intros Hk Hst.
  pose proof (dropOld_length (sub (ofZ now) windowMs) (calls st)) as Hd.
  destruct (limited_cases now args st w) as [[Hlt ->] | [_ ->]];
    cbn [fst snd calls].
  - pose proof (NumFacts.lt_le_bound _ _ _ Hlt Hk) as Hroom.
    rewrite length_app. cbn [length]. lia.
  - lia.
Qed.

Lemma runLimited_bound (k : Z) (cs : list (Z * A)) :
  le maxCalls (ofZ k) = true ->
  forall (st : Limiter) (w : W),
    Z.of_nat (length (calls st)) <= k ->
    Z.of_nat (length (calls (runLimited cs st w).1.2)) <= k.
Proof.
  intros Hk.
  induction cs as [|[now args] cs IH]; intros st w Hst; [exact Hst|].
  simpl. pose proof (limited_bound k now args st w Hk Hst) as Hstep.
  destruct (limited now args st w) as [[r st'] w'] eqn:Hcall. simpl in Hstep.
  specialize (IH st' w' Hstep).
  destruct (runLimited cs st' w') as [[rs st''] w'']. exact IH.
Qed.
End Limiter.

(** The example: three calls per second; of four calls in the same
    millisecond the fourth is refused. *)
Definition printsIt : string -> list string -> unit * list string :=
  fun line out => (tt, out ++ [line]).

Example limiter_example :
  runLimited (ofZ 3) (ofZ 1000) printsIt
    [(0, "Call 1"); (0, "Call 2"); (0, "Call 3"); (0, "Call 4")]
    createRateLimiter []
  = ([Returned tt; Returned tt; Returned tt; Null],
     {| calls := [0; 0; 0]; refusals := 1 |},
     ["Call 1"; "Call 2"; "Call 3"]).
Proof. reflexivity. Qed.

(** C9, as stated, fails in five places.  (1) When the clock goes back
    the array is not sorted, and the loop that drops old calls stops at
    the first entry inside the window: with [maxCalls = 2] and
    [windowMs = 1000], after calls at readings 100 and 50 a call at 1080
    finds one recorded timestamp inside its window (100; 50 is too old),
    fewer than two, and is refused all the same.  (2) When [windowMs] is
    NaN no timestamp lies within the window, and none is ever dropped:
    with [maxCalls = 1] the call at 5000 that follows a call at 0 is
    refused.  (3) When binary64 rounds the difference [now - windowMs],
    the loop may keep a timestamp that is outside the window: with
    [windowMs = 1 - 2^-53] the difference [2 - windowMs] is rounded to 1,
    and with [maxCalls = 1] the call at 2 that follows a call at 1 is
    refused.  (4) When [maxCalls] is negative the empty array already
    holds more than [maxCalls] entries.  (5) When [maxCalls] is 2.5 three
    calls go through and the array holds three entries. *)
Lemma limiter_needs_steady_clock_and_nonnegative_limit :
  let before := runLimited (ofZ 2) (ofZ 1000) printsIt [(100, "a"); (50, "b")]
                  createRateLimiter [] in
  let history := recorded (ofZ 2) (ofZ 1000) printsIt [(100, "a"); (50, "b")]
                  createRateLimiter [] in
  let call := limited (ofZ 2) (ofZ 1000) printsIt 1080 "c" before.1.2 before.2 in
  history = [100; 50] /\
  countInWindow (ofZ 1000) 1080 history = 1 /\
  lt (ofZ (countInWindow (ofZ 1000) 1080 history)) (ofZ 2) = true /\
  call.1.1 = Null /\
  call.2 = ["a"; "b"] /\
  let first := limited (ofZ 1) NaN printsIt 0 "a" createRateLimiter [] in
  let second := limited (ofZ 1) NaN printsIt 5000 "b" first.1.2 first.2 in
  first.1.1 = Returned tt /\
  countInWindow NaN 5000 [0] = 0 /\
  lt (ofZ (countInWindow NaN 5000 [0])) (ofZ 1) = true /\
  second.1.1 = Null /\
  let almost1 := ofFloat 0x1.fffffffffffffp-1 in
  let first := limited (ofZ 1) almost1 printsIt 1 "a" createRateLimiter [] in
  let second := limited (ofZ 1) almost1 printsIt 2 "b" first.1.2 first.2 in
  first.1.1 = Returned tt /\
  exactAt almost1 2 = false /\
  same (sub (ofZ 2) almost1) (ofZ 1) = true /\
  countInWindow almost1 2 [1] = 0 /\
  lt (ofZ (countInWindow almost1 2 [1])) (ofZ 1) = true /\
  second.1.1 = Null /\
  let refused := limited (ofZ (-1)) (ofZ 1000) printsIt 0 "a" createRateLimiter [] in
  refused.1.1 = Null /\
  lt (ofZ (-1)) (ofZ (Z.of_nat (length (calls refused.1.2)))) = true /\
  let three := runLimited (ofFloat 2.5) (ofZ 1000) printsIt
                 [(0, "a"); (0, "b"); (0, "c")] createRateLimiter [] in
  three.1.1 = [Returned tt; Returned tt; Returned tt] /\
  calls three.1.2 = [0; 0; 0] /\
  lt (ofFloat 2.5) (ofZ (Z.of_nat (length (calls three.1.2)))) = true.
Proof. vm_compute. repeat split; reflexivity. Qed.

(** C9, amended.  A call of the wrapper at [now] either invokes [fn],
    returns its result (with its effects) and records [now] at the back
    of the array, or returns [null], leaves the store as it was and
    records nothing.  When the wrapper is called at readings of the clock
    that never go back, [windowMs] is not NaN, and binary64 computes
    each difference [now - windowMs] without rounding, it does the first
    if and only if fewer than [maxCalls] of the timestamps recorded so
    far lie within the last [windowMs] milliseconds.  The difference is
    computed without rounding whenever [windowMs] is a whole number and
    the difference is of magnitude below 2^53, and whenever [windowMs]
    is an infinity.  On any clock, the array never holds more entries
    than a whole number [k >= 0] that [maxCalls] does not exceed: never
    more than [maxCalls] when that is a whole number and not negative. *)
Theorem limiter_admits_iff_window_has_room :
  forall (W A R : Type) (maxCalls windowMs : Num) (fn : A -> W -> R * W)
         (cs : list (Z * A)) (now : Z) (args : A) (w0 : W),
    let before := runLimited maxCalls windowMs fn cs createRateLimiter w0 in
    let history := recorded maxCalls windowMs fn cs createRateLimiter w0 in
    let call := limited maxCalls windowMs fn now args before.1.2 before.2 in
    (nondecreasing (map fst cs ++ [now]) = true ->
     windowMs <> NaN ->
     forallb (exactAt windowMs) (map fst cs ++ [now]) = true ->
       (wentThrough call.1.1 = true <->
          lt (ofZ (countInWindow windowMs now history)) maxCalls = true)) /\
    (wentThrough call.1.1 = true ->
       call.1.1 = Returned (fst (fn args before.2)) /\
       call.2 = snd (fn args before.2) /\
       calls call.1.2
         = dropOld (sub (ofZ now) windowMs) (calls before.1.2) ++ [now] /\
       refusals call.1.2 = refusals before.1.2) /\
    (wentThrough call.1.1 = false ->
       call.1.1 = Null /\
       call.2 = before.2 /\
       calls call.1.2 = dropOld (sub (ofZ now) windowMs) (calls before.1.2) /\
       refusals call.1.2 = S (refusals before.1.2)) /\
    (forall w t : Z, Z.abs (t - w) < 2 ^ 53 -> exactAt (ofZ w) t = true) /\
    (forall t : Z, exactAt PlusInfinity t = true /\
                   exactAt MinusInfinity t = true) /\
    (forall k : Z,
       0 <= k -> le maxCalls (ofZ k) = true ->
       Z.of_nat (length (calls before.1.2)) <= k /\
       Z.of_nat (length (calls call.1.2)) <= k) /\
    (forall k : Z,
       0 <= k -> maxCalls = ofZ k ->
       lt maxCalls (ofZ (Z.of_nat (length (calls before.1.2)))) = false /\
       lt maxCalls (ofZ (Z.of_nat (length (calls call.1.2)))) = false).
Proof.
  intros W A R maxCalls windowMs fn cs now args w0 before history call.
  assert (Hbound : forall k : Z,
             0 <= k -> le maxCalls (ofZ k) = true ->
             Z.of_nat (length (calls before.1.2)) <= k /\
             Z.of_nat (length (calls call.1.2)) <= k).
  { intros k Hk Hmax.
    assert (Hb : Z.of_nat (length (calls before.1.2)) <= k).
    { apply runLimited_bound; [exact Hmax | simpl; exact Hk]. }
    split; [exact Hb | apply limited_bound; [exact Hmax | exact Hb]]. }
  split; [|split; [|split; [|split; [|split; [|split]]]]].
  - intros Hclock Hw Hexact.
    rewrite forallb_app in Hexact. apply andb_true_iff in Hexact as [Hex Hnow].
    cbn [forallb] in Hnow. rewrite andb_true_r in Hnow.
    set (b := hd now (map fst cs)).
    assert (Hs : nondecreasing (b :: map fst cs ++ [now]) = true).
    { unfold b. destruct cs as [|[t a] cs]; simpl hd.
      - simpl. rewrite Z.leb_refl. reflexivity.
      - change (nondecreasing (t :: map fst ((t, a) :: cs) ++ [now]))
          with ((t <=? t) && nondecreasing (map fst ((t, a) :: cs) ++ [now])).
        rewrite Z.leb_refl. exact Hclock. }
    assert (Hstart : linked windowMs [] (createRateLimiter) b).
    { exists []. repeat split; constructor. }
    pose proof (runLimited_linked maxCalls windowMs fn cs [] createRateLimiter
                  w0 b now Hstart Hs Hex) as Hlinked.
    simpl in Hlinked. fold before history in Hlinked.
    pose proof (kept_is_window windowMs history before.1.2 now now
                  Hw Hnow (Z.le_refl now) Hlinked) as Hcount.
    rewrite Hcount. subst call.
    destruct (limited_cases maxCalls windowMs fn now args before.1.2 before.2)
      as [[Hlt ->] | [Hge ->]]; cbn [fst snd wentThrough]; split; intros H;
      first [reflexivity | discriminate | congruence].
  - subst call.
    destruct (limited_cases maxCalls windowMs fn now args before.1.2 before.2)
      as [[Hlt ->] | [Hge ->]]; simpl; intros H; [repeat split | discriminate].
  - subst call.
    destruct (limited_cases maxCalls windowMs fn now args before.1.2 before.2)
      as [[Hlt ->] | [Hge ->]]; simpl; intros H; [discriminate | repeat split].
  - intros w t Hwt. unfold exactAt. apply NumFacts.sub_whole, Hwt.
  - intros t. split; reflexivity.
  - exact Hbound.
  - intros k Hk Hmax.
    assert (Hle : le maxCalls (ofZ k) = true).
    { rewrite Hmax, NumFacts.le_ofZ. apply Z.leb_le. lia. }
    destruct (Hbound k Hk Hle) as [H1 H2].
    rewrite Hmax, !NumFacts.lt_ofZ. split; apply Z.ltb_ge; assumption.
Qed.

(** The amended claim at work: calls at 0, 400, 800 fill a window of one
    second for three calls; at 900 the wrapper refuses, at 1001 the call
    of time 0 has left the window and the wrapper lets the call through. *)
Lemma limiter_admits_iff_window_has_room_witness :
  nondecreasing (map fst [(0, "a"); (400, "b"); (800, "c"); (900, "d")] ++ [1001]) = true /\
  forallb (exactAt (ofZ 1000))
    (map fst [(0, "a"); (400, "b"); (800, "c"); (900, "d")] ++ [1001]) = true /\
  let cs := [(0, "a"); (400, "b"); (800, "c"); (900, "d")] in
  let before := runLimited (ofZ 3) (ofZ 1000) printsIt cs createRateLimiter [] in
  let history := recorded (ofZ 3) (ofZ 1000) printsIt cs createRateLimiter [] in
  let call := limited (ofZ 3) (ofZ 1000) printsIt 1001 "e" before.1.2 before.2 in
  (wentThrough call.1.1 = true <->
     lt (ofZ (countInWindow (ofZ 1000) 1001 history)) (ofZ 3) = true) /\
  history = [0; 400; 800] /\
  countInWindow (ofZ 1000) 1001 history = 2 /\
  call.1.1 = Returned tt /\
  calls call.1.2 = [400; 800; 1001].
Proof.
  split; [reflexivity|]. split; [reflexivity|].
  pose proof (limiter_admits_iff_window_has_room _ _ _ (ofZ 3) (ofZ 1000) printsIt
                [(0, "a"); (400, "b"); (800, "c"); (900, "d")] 1001 "e" [])
    as [H _].
  split; [apply H; [reflexivity | discriminate | reflexivity] | repeat split].
Defined.

End RateLimiterFacts.

(* ===================================================================== *)
(** * Closures: memoization *)
(* ===================================================================== *)

Module MemoFacts.
Import Closure.

(** What a [Map] sees of a key: a string; or a number up to the sign of
    zero, [NaN] included. *)
Definition keyClass (k : Key) : string + spec_float :=
  match k with
  | KString s => inl s
  | KNumber n => inr (FloatFacts.unsigned_zero (Prim2SF n))
  end.

Lemma sameValueZero_class (x y : Key) :
  sameValueZero x y = true <-> keyClass x = keyClass y.
Proof.
  destruct x as [a|a], y as [b|b]; simpl.
  - rewrite String.eqb_eq. split; congruence.
  - split; discriminate.
  - split; discriminate.
  - rewrite orb_true_iff, andb_true_iff, FloatFacts.eqb_true,
      !FloatFacts.is_nan_true.
    split.
    + intros [[_ H] | [Ha Hb]]; [congruence | rewrite Ha, Hb; reflexivity].
    + intros H. injection H as H.
      destruct (Prim2SF a) eqn:Ha.
      * left. split; [discriminate | exact H].
      * left. split; [discriminate | exact H].
      * right. split; [reflexivity|].
        destruct (Prim2SF b); simpl in H; congruence.
      * left. split; [discriminate | exact H].
Qed.

Lemma sameValueZero_refl (x : Key) : sameValueZero x x = true.
Proof. apply sameValueZero_class. reflexivity. Qed.

Lemma sameValueZero_false (x y : Key) :
  sameValueZero x y = false <-> keyClass x <> keyClass y.
Proof. rewrite <- sameValueZero_class. symmetry. apply not_true_iff_false. Qed.

Lemma storedKey_class (k : Key) : keyClass (storedKey k) = keyClass k.
Proof.
  destruct k as [s|n]; simpl; [reflexivity|].
  destruct (PrimFloat.eqb n 0%float) eqn:Hn; [|reflexivity].
  apply FloatFacts.eqb_true in Hn as [_ Hn]. simpl. rewrite Hn. reflexivity.
Qed.

(** A [Map] answers by the class of the key. *)
Lemma Map_get_class {R} (m : JsMap R) (x y : Key) :
  keyClass x = keyClass y -> Map_get m x = Map_get m y.
Proof.
  intros Hxy. induction m as [|[k v] m IH]; simpl; [reflexivity|].
  destruct (sameValueZero k x) eqn:Hx, (sameValueZero k y) eqn:Hy;
    try reflexivity; try exact IH.
  - apply sameValueZero_class in Hx. apply sameValueZero_false in Hy. congruence.
  - apply sameValueZero_class in Hy. apply sameValueZero_false in Hx. congruence.
Qed.

Lemma Map_has_get {R} (m : JsMap R) (k : Key) :
  Map_has m k = true <-> exists v, Map_get m k = Some v.
Proof.
  unfold Map_has. destruct (Map_get m k) as [v|].
  - split; [intros _; exists v; reflexivity | reflexivity].
  - split; [discriminate | intros [v Hv]; discriminate].
Qed.

Lemma Map_get_set_same {R} (m : JsMap R) (k : Key) (v : R) :
  Map_get (Map_set m k v) k = Some v.
Proof.
  induction m as [|[k' v'] m IH]; simpl.
  - assert (H : sameValueZero (storedKey k) k = true)
      by (apply sameValueZero_class, storedKey_class).
    rewrite H. reflexivity.
  - destruct (sameValueZero k' k) eqn:Hk; simpl; rewrite Hk; [reflexivity | exact IH].
Qed.

Lemma Map_get_set_other {R} (m : JsMap R) (k x : Key) (v : R) :
  keyClass k <> keyClass x -> Map_get (Map_set m k v) x = Map_get m x.
Proof.
  intros Hne. induction m as [|[k' v'] m IH]; simpl.
  - assert (H : sameValueZero (storedKey k) x = false).
    { apply sameValueZero_false. rewrite storedKey_class. exact Hne. }
    rewrite H. reflexivity.
  - destruct (sameValueZero k' k) eqn:Hk; simpl.
    + assert (H : sameValueZero k' x = false).
      { apply sameValueZero_false. apply sameValueZero_class in Hk. congruence. }
      rewrite H. reflexivity.
    + destruct (sameValueZero k' x); [reflexivity | exact IH].
Qed.

Section Wrapper.
Context {W R E : Type}.
Variable fn : Key -> W -> Completion R E * W.

(** The outcomes of a call: a hit; or a miss, which ends as [fn] ends. *)
Lemma memoized_hit (arg : Key) (st : Memo R) (w : W) (cached : R) :
  Map_get (cache st) arg = Some cached ->
  memoized fn arg st w =
    (Return cached,
     {| cache := cache st; memoConsole := memoConsole st ++ [CacheHit arg] |},
     w).
Proof. intros H. unfold memoized. rewrite H. reflexivity. Qed.

Lemma memoized_miss (arg : Key) (st : Memo R) (w : W) :
  Map_get (cache st) arg = None ->
  memoized fn arg st w =
    (fst (fn arg w),
     {| cache := match fst (fn arg w) with
                 | Return result => Map_set (cache st) arg result
                 | Throw _ => cache st
                 end;
        memoConsole := memoConsole st ++ [Computing arg] |},
     snd (fn arg w)).
Proof.
  intros H. unfold memoized. rewrite H.
  destruct (fn arg w) as [[result|thrown] w']; reflexivity.
Qed.





End Wrapper.

(** For a function without effects that gives one result per class of
    key, every entry of the cache is the function's result. *)
Definition sound {R} (f : Key -> R) (m : JsMap R) : Prop :=
  forall (x : Key) (cached : R), Map_get m x = Some cached -> cached = f x.

Lemma runMemoized_pure {R E} (f : Key -> R) :
  (forall x y, sameValueZero x y = true -> f x = f y) ->
  forall (args : list Key) (st : Memo R),
    sound f (cache st) ->
    (runMemoized (@pureFn R E f) args st tt).1.1
    = map (fun x => Return (f x)) args.
Proof.
  intros Hf. induction args as [|arg args IH]; intros st Hst; [reflexivity|].
  simpl.
  assert (Hstep : (memoized (@pureFn R E f) arg st tt).1.1 = Return (f arg) /\
                  sound f (cache (memoized (@pureFn R E f) arg st tt).1.2) /\
                  (memoized (@pureFn R E f) arg st tt).2 = tt).
  { destruct (Map_get (cache st) arg) as [c|] eqn:Harg.
    - rewrite (memoized_hit _ _ _ _ _ Harg). simpl.
      repeat split; [f_equal; apply Hst, Harg | exact Hst].
    - rewrite (memoized_miss _ _ _ _ Harg). simpl.
      repeat split. intros x cached Hx.
      destruct (sameValueZero arg x) eqn:Hax.
      + rewrite <- (Map_get_class _ arg x) in Hx
          by (apply sameValueZero_class, Hax).
        rewrite Map_get_set_same in Hx. injection Hx as <-. apply Hf, Hax.
      + rewrite Map_get_set_other in Hx by (apply sameValueZero_false, Hax).
        apply Hst, Hx. }
  destruct (memoized (@pureFn R E f) arg st tt) as [[r st'] w'].
  simpl in Hstep. destruct Hstep as (-> & Hsound & ->).
  specialize (IH st' Hsound).
  destruct (runMemoized (@pureFn R E f) args st' tt) as [[rs st''] w''].
  simpl in *. congruence.
Qed.

(** [expensiveCalculation] as a function of the key; the example passes
    it numbers only. *)
Definition expensiveOnKey (k : Key) : number :=
  match k with
  | KNumber n => expensiveCalculation n
  | KString _ => nan
  end.

(** Two numbers that are one key are the same number, or both a zero. *)
Lemma same_number_key (a b : number) :
  sameValueZero (KNumber a) (KNumber b) = true ->
  a = b \/ ((a = 0%float \/ a = (-0)%float) /\ (b = 0%float \/ b = (-0)%float)).
Proof.
  intros H. apply sameValueZero_class in H. simpl in H. injection H as H.
  assert (Hzero : forall (x : number) (sign : bool),
             Prim2SF x = S754_zero sign -> x = 0%float \/ x = (-0)%float).
  { intros x sign Hx. rewrite <- (SF2Prim_Prim2SF x), Hx.
    destruct sign; [right | left]; reflexivity. }
  destruct (Prim2SF a) as [sa| | |] eqn:Ha, (Prim2SF b) as [sb| | |] eqn:Hb;
    simpl in H; try discriminate;
    try (left; apply Prim2SF_inj; rewrite Ha, Hb; congruence).
  right. split; [apply (Hzero a sa Ha) | apply (Hzero b sb Hb)].
Qed.

(** [expensiveCalculation] does not tell the two zeros apart. *)
Lemma expensiveOnKey_per_key (x y : Key) :
  sameValueZero x y = true -> expensiveOnKey x = expensiveOnKey y.
Proof.
  destruct x as [a|a], y as [b|b]; try discriminate; [reflexivity|].
  intros H. apply same_number_key in H as [-> | [[-> | ->] [-> | ->]]];
    reflexivity.
Qed.

(** The example: [memoized(5)] computes 25, [memoized(5)] again hits the
    cache. *)
Example memoized_example :
  let run := runMemoized (@pureFn number Empty_set expensiveOnKey)
               [KNumber 5; KNumber 5] createMemoizedFunction tt in
  run.1.1 = [Return 25%float; Return 25%float] /\
  memoConsole run.1.2 = [Computing (KNumber 5); CacheHit (KNumber 5)].
Proof. vm_compute. split; reflexivity. Qed.

(** [NaN] is a key like any other: the second call with it hits the
    cache. *)
Example memoized_nan :
  memoConsole (runMemoized (@pureFn number Empty_set expensiveOnKey)
                 [KNumber nan; KNumber nan] createMemoizedFunction tt).1.2
  = [Computing (KNumber nan); CacheHit (KNumber nan)].
Proof. vm_compute. reflexivity. Qed.


(** A function that throws when it is invoked for the first time and
    returns 42 from then on; its store counts its invocations. *)
Definition flaky (k : Key) (invocations : nat) : Completion number string * nat :=
  match invocations with
  | O => (Throw "not ready", 1%nat)
  | S _ => (Return 42%float, S invocations)
  end.



(** So the memoized [expensiveCalculation] of the example returns, at
    every call of every sequence of calls, what [expensiveCalculation]
    returns. *)
Lemma memoized_expensiveCalculation :
  forall args : list Key,
    (runMemoized (@pureFn number Empty_set expensiveOnKey) args
       createMemoizedFunction tt).1.1
    = map (fun x => Return (expensiveOnKey x)) args.
Proof.
  intros args. apply runMemoized_pure; [exact expensiveOnKey_per_key|].
  intros x cached Hx. discriminate.
Qed.


End MemoFacts.

(* ===================================================================== *)
(** * Closures: which operations change the state they close over *)
(* ===================================================================== *)

Module StateFacts.
Import Closure.
Import Num.

(** C1, as stated, says every operation leaves its component's state as
    it was, so that a repeated call returns the same.  [increment()] on a
    fresh counter returns 1 and then 2 and leaves the counter changed;
    [Calculator.add] leaves [lastResult] changed; the rate limiter with
    room for one call lets the first call through and refuses the same
    call made again. *)
Lemma components_own_state :
  fst (increment createCounter) = 1 /\
  fst (increment (snd (increment createCounter))) = 2 /\
  snd (increment createCounter) <> createCounter /\
  lastResult Calculator = 0%float /\
  lastResult (snd (calc_add 5 3 Calculator)) = 8%float /\
  PrimFloat.eqb (lastResult (snd (calc_add 5 3 Calculator)))
                (lastResult Calculator) = false /\
  (runLimited (ofZ 1) (ofZ 1000) RateLimiterFacts.printsIt
     [(0, "Call"); (0, "Call")] createRateLimiter []).1.1
  = [Returned tt; Null].
Proof.
  split; [reflexivity|]. split; [reflexivity|]. split; [discriminate|].
  vm_compute. repeat split; reflexivity.
Qed.

(** C1, amended.  The components own state across invocations.
    [getCount] and [getLastResult] only read: they return [count] and
    [lastResult], leave the state as it was, and so return the same when
    called again.  [Calculator.add(a, b)] returns [a + b], leaves it in
    [lastResult] and prints one line ([subtract]: [a - b]); so a repeated
    call returns the same, and [getLastResult] then returns it.
    [increment] and [decrement] always change [count]: they return the
    new count, one more (one less) than before, and a repeated call
    returns one more (one less) again.  A call of the rate limiter's
    wrapper that goes through returns [fn]'s result, with [fn]'s effects,
    and records its time at the back of [calls]; a call that is refused
    returns [null], runs nothing of [fn], and counts one more refusal, so
    it changes the state too.  With room for one call and a window that
    is not negative, the same call made twice at the same time returns
    [fn]'s result first and [null] next (the difference [now - windowMs]
    being one that binary64 computes without rounding, as it does for
    every whole [windowMs] up to 2^53 away from [now]). *)
Theorem reads_keep_state_writes_change_it :
  (forall c : Counter,
      fst (getCount c) = count c /\
      snd (getCount c) = c /\
      fst (getCount (snd (getCount c))) = fst (getCount c)) /\
  (forall s : Calc,
      fst (getLastResult s) = lastResult s /\
      snd (getLastResult s) = s /\
      fst (getLastResult (snd (getLastResult s))) = fst (getLastResult s)) /\
  (forall (a b : number) (s : Calc),
      fst (calc_add a b s) = (a + b)%float /\
      lastResult (snd (calc_add a b s)) = (a + b)%float /\
      console (snd (calc_add a b s))
        = console s ++ [{| operation := "Addition"; logged := (a + b)%float |}] /\
      fst (calc_add a b (snd (calc_add a b s))) = fst (calc_add a b s) /\
      fst (getLastResult (snd (calc_add a b s))) = fst (calc_add a b s)) /\
  (forall (a b : number) (s : Calc),
      fst (calc_subtract a b s) = (a - b)%float /\
      lastResult (snd (calc_subtract a b s)) = (a - b)%float /\
      console (snd (calc_subtract a b s))
        = console s ++ [{| operation := "Subtraction"; logged := (a - b)%float |}] /\
      fst (calc_subtract a b (snd (calc_subtract a b s)))
        = fst (calc_subtract a b s) /\
      fst (getLastResult (snd (calc_subtract a b s)))
        = fst (calc_subtract a b s)) /\
  (forall c : Counter,
      fst (increment c) = count c + 1 /\
      count (snd (increment c)) = count c + 1 /\
      fst (decrement c) = count c - 1 /\
      count (snd (decrement c)) = count c - 1 /\
      fst (increment (snd (increment c))) = fst (increment c) + 1 /\
      fst (decrement (snd (decrement c))) = fst (decrement c) - 1 /\
      snd (increment c) <> c /\
      snd (decrement c) <> c) /\
  (forall (W A R : Type) (maxCalls windowMs : Num) (fn : A -> W -> R * W)
          (now : Z) (args : A) (st : Limiter) (w : W),
      let call := limited maxCalls windowMs fn now args st w in
      let kept := dropOld (sub (ofZ now) windowMs) (calls st) in
      if wentThrough call.1.1
      then call.1.1 = Returned (fst (fn args w)) /\
           call.2 = snd (fn args w) /\
           calls call.1.2 = kept ++ [now] /\
           refusals call.1.2 = refusals st
      else call.1.1 = Null /\
           call.2 = w /\
           calls call.1.2 = kept /\
           refusals call.1.2 = S (refusals st) /\
           call.1.2 <> st) /\
  (forall (W A R : Type) (windowMs : Num) (fn : A -> W -> R * W)
          (now : Z) (args : A) (w : W),
      lt windowMs (ofZ 0) = false ->
      exactAt windowMs now = true ->
      let first := limited (ofZ 1) windowMs fn now args createRateLimiter w in
      let second := limited (ofZ 1) windowMs fn now args first.1.2 first.2 in
      first.1.1 = Returned (fst (fn args w)) /\
      first.2 = snd (fn args w) /\
      second.1.1 = Null /\
      second.2 = first.2) /\
  (forall w now : Z, Z.abs (now - w) < 2 ^ 53 -> exactAt (ofZ w) now = true).
Proof.
  split; [|split; [|split; [|split; [|split; [|split; [|split]]]]]].
  - intros c. repeat split.
  - intros s. repeat split.
  - intros a b s. repeat split.
  - intros a b s. repeat split.
  - intros [n]. unfold increment, decrement. simpl.
    repeat split; try lia; intros H; injection H; lia.
  - intros W A R maxCalls windowMs fn now args st w call kept. subst call kept.
    destruct (RateLimiterFacts.limited_cases maxCalls windowMs fn now args st w)
      as [[_ ->] | [_ ->]]; cbn [fst snd wentThrough calls refusals].
    + repeat split.
    + split; [reflexivity|]. split; [reflexivity|]. split; [reflexivity|].
      split; [reflexivity|]. intros H.
      apply (f_equal refusals) in H. cbn [refusals] in H. lia.
  - intros W A R windowMs fn now args w Hw Hexact first second.
    assert (Hfirst : first = (Returned (fst (fn args w)),
                              {| calls := [now]; refusals := 0 |},
                              snd (fn args w))).
    { subst first. unfold limited. cbn [calls createRateLimiter dropOld length].
      change (lt (ofZ (Z.of_nat 0)) (ofZ 1)) with true. cbv iota.
      destruct (fn args w); reflexivity. }
    subst second. rewrite Hfirst. cbn [fst snd].
    split; [reflexivity|]. split; [reflexivity|].
    unfold limited. cbn [calls refusals dropOld].
    rewrite (RateLimiterFacts.older_exact windowMs now now Hexact).
    rewrite (NumFacts.now_not_older windowMs now Hw). cbn [length].
    change (lt (ofZ (Z.of_nat 1)) (ofZ 1)) with false. cbv iota.
    split; reflexivity.
  - intros w now Hw. unfold exactAt. apply NumFacts.sub_whole, Hw.
Qed.

(** The last part at work: a wrapper for one call per second, called
    twice in the same millisecond. *)
Lemma reads_keep_state_writes_change_it_witness :
  lt (ofZ 1000) (ofZ 0) = false /\
  exactAt (ofZ 1000) 0 = true /\
  let first := limited (ofZ 1) (ofZ 1000) RateLimiterFacts.printsIt 0 "Call"
                 createRateLimiter [] in
  let second := limited (ofZ 1) (ofZ 1000) RateLimiterFacts.printsIt 0 "Call"
                  first.1.2 first.2 in
  first.1.1 = Returned tt /\ second.1.1 = Null /\ second.2 = ["Call"].
Proof.
  split; [reflexivity|]. split; [reflexivity|].
  destruct reads_keep_state_writes_change_it
    as (_ & _ & _ & _ & _ & _ & Htwice & _).
  destruct (Htwice (list string) string unit (ofZ 1000)
              RateLimiterFacts.printsIt 0 "Call" [] eq_refl eq_refl)
    as (H1 & H2 & H3 & H4).
  cbv zeta. split; [exact H1|]. split; [exact H3|].
  rewrite H4, H2. reflexivity.
Defined.

End StateFacts.

(* ===================================================================== *)
(** * Streams: the writers *)
(* ===================================================================== *)

Module WriterFacts.
Import Stream.

Section Writers.
Context {Wr : Type}.
Variable write : Wr -> string -> Wr * bool.
Variable flush : Wr -> Wr.

(** [writeToFile] submits every line, whatever the stream answers. *)
Lemma writeToFile_submits (data : list string) (wr : Wr) :
  fst (writeToFile write data wr) = map (fun line => line +:+ String LF "") data.
Proof.
  revert wr. induction data as [|line data IH]; intros wr; [reflexivity|].
  simpl. destruct (write wr (line +:+ String LF "")) as [wr' ok].
  specialize (IH wr'). destruct (writeToFile write data wr') as [submitted wr''].
  simpl in *. congruence.
Qed.

(** A call of [write()] submits a prefix of what was left and leaves the
    rest, in order. *)
Lemma writeLoop_splits (rest : list string) (wr : Wr) :
  (writeLoop write rest wr).1.1 ++ (writeLoop write rest wr).1.2 = rest.
Proof.
  revert wr. induction rest as [|chunk rest IH]; intros wr; [reflexivity|].
  simpl. destruct (write wr chunk) as [wr' ok].
  destruct rest as [|next rest]; [reflexivity|].
  destruct ok; [|reflexivity].
  specialize (IH wr').
  destruct (writeLoop write (next :: rest) wr') as [[submitted remaining] wr''].
  simpl in *. congruence.
Qed.

(** It submits at least one chunk when there is one. *)
Lemma writeLoop_progress (rest : list string) (wr : Wr) :
  rest <> [] ->
  (length (writeLoop write rest wr).1.2 < length rest)%nat.
Proof.
  intros Hrest.
  pose proof (writeLoop_splits rest wr) as Hsplit.
  assert (Hsub : (writeLoop write rest wr).1.1 <> []).
  { destruct rest as [|chunk rest]; [congruence|]. simpl.
    destruct (write wr chunk) as [wr' ok].
    destruct rest as [|next rest]; [discriminate|].
    destruct ok; [|discriminate].
    destruct (writeLoop write (next :: rest) wr') as [[submitted remaining] wr''].
    discriminate. }
  apply (f_equal (@length string)) in Hsplit. rewrite length_app in Hsplit.
  destruct (writeLoop write rest wr).1.1; [congruence | simpl in Hsplit; lia].
Qed.

(** When the stream never reports a full buffer, one call submits all. *)
Lemma writeLoop_roomy (rest : list string) (wr : Wr) :
  (forall wr chunk, snd (write wr chunk) = true) ->
  (writeLoop write rest wr).1.1 = rest /\ (writeLoop write rest wr).1.2 = [].
Proof.
  intros Hroomy. revert wr.
  induction rest as [|chunk rest IH]; intros wr; [split; reflexivity|].
  simpl. pose proof (Hroomy wr chunk) as Hok.
  destruct (write wr chunk) as [wr' ok]. simpl in Hok. subst ok.
  destruct rest as [|next rest]; [split; reflexivity|].
  specialize (IH wr').
  destruct (writeLoop write (next :: rest) wr') as [[submitted remaining] wr''].
  simpl in *. destruct IH as [-> ->]. split; reflexivity.
Qed.

(** The stream after chunks were written to it one after the other, and
    the answers it gave, in order. *)
Fixpoint stateAfter (chunks : list string) (wr : Wr) : Wr :=
  match chunks with
  | [] => wr
  | chunk :: chunks' => stateAfter chunks' (fst (write wr chunk))
  end.

Fixpoint answers (chunks : list string) (wr : Wr) : list bool :=
  match chunks with
  | [] => []
  | chunk :: chunks' =>
      snd (write wr chunk) :: answers chunks' (fst (write wr chunk))
  end.

(** A call of [write()] stops behind the first chunk, the last one
    apart, that the stream answers with [false]. *)
Lemma writeLoop_stops (rest : list string) :
  forall (wr : Wr) (i : nat),
    (S i < length rest)%nat ->
    answers rest wr !! i = Some false ->
    (forall j, (j < i)%nat -> answers rest wr !! j = Some true) ->
    writeLoop write rest wr
    = (take (S i) rest, drop (S i) rest, stateAfter (take (S i) rest) wr).
Proof.
  induction rest as [|chunk rest IH]; intros wr i Hlen Hi Hbefore;
    [simpl in Hlen; lia|].
  destruct rest as [|next rest]; [simpl in Hlen; lia|].
  cbn [writeLoop answers] in *.
  destruct (write wr chunk) as [wr' ok] eqn:Hw. cbn [fst snd] in *.
  destruct i as [|i].
  - simpl in Hi. injection Hi as ->. simpl. rewrite Hw. reflexivity.
  - assert (Hok : ok = true).
    { specialize (Hbefore 0%nat ltac:(lia)). simpl in Hbefore. congruence. }
    subst ok.
    rewrite (IH wr' i).
    + simpl. rewrite Hw. reflexivity.
    + simpl in Hlen |- *. lia.
    + exact Hi.
    + intros j Hj. apply (Hbefore (S j)). lia.
Qed.

(** It submits everything when the stream answers every chunk but the
    last with [true]. *)
Lemma writeLoop_all (rest : list string) :
  forall (wr : Wr),
    (forall i, (S i < length rest)%nat -> answers rest wr !! i = Some true) ->
    writeLoop write rest wr = (rest, [], stateAfter rest wr).
Proof.
  induction rest as [|chunk rest IH]; intros wr Hall; [reflexivity|].
  cbn [writeLoop answers stateAfter] in *.
  destruct (write wr chunk) as [wr' ok] eqn:Hw. cbn [fst snd] in *.
  destruct rest as [|next rest]; [reflexivity|].
  assert (Hok : ok = true).
  { specialize (Hall 0%nat ltac:(simpl; lia)). simpl in Hall. congruence. }
  subst ok. rewrite (IH wr'); [reflexivity|].
  intros i Hi. apply (Hall (S i)). simpl in Hi |- *. lia.
Qed.

(** With a "drain" after every call that left chunks behind, all chunks
    are submitted, in order, within as many calls as there are chunks. *)
Lemma drainRounds_submits (fuel : nat) :
  forall (rest : list string) (wr : Wr),
    (length rest <= fuel)%nat ->
    concat (drainRounds write flush fuel rest wr).1.1 = rest /\
    (drainRounds write flush fuel rest wr).1.2 = [].
Proof.
  induction fuel as [|fuel IH]; intros rest wr Hfuel.
  - destruct rest; [split; reflexivity | simpl in Hfuel; lia].
  - simpl. pose proof (writeLoop_splits rest wr) as Hsplit.
    destruct (writeLoop write rest wr) as [[submitted remaining] wr'] eqn:Hloop.
    simpl in Hsplit. destruct remaining as [|next remaining]; simpl.
    + rewrite !app_nil_r in *. split; [exact Hsplit | reflexivity].
    + assert (Hlt : (length (next :: remaining) < length rest)%nat).
      { destruct rest as [|c rest].
        - simpl in Hloop. injection Hloop as _ Hrem _. discriminate.
        - pose proof (writeLoop_progress (c :: rest) wr) as Hp.
          rewrite Hloop in Hp. simpl in Hp. simpl. apply Hp. discriminate. }
      assert (Hfuel' : (length (next :: remaining) <= fuel)%nat) by lia.
      specialize (IH (next :: remaining) (flush wr') Hfuel').
      destruct (drainRounds write flush fuel (next :: remaining) (flush wr'))
        as [[later remaining'] wr''].
      simpl in *. destruct IH as [Hlater ->].
      split; [rewrite Hlater; exact Hsplit | reflexivity].
Qed.
End Writers.

(** C5, as stated, says that what an authored writer submits does not
    depend on the answers of [writable.write].  Given the chunks A, B, C,
    the call [writeWithBackpressure] submits all three to a stream that
    never reports a full buffer, and registers nothing; to a stream that
    reports a full buffer it submits A only, keeps B and C, and registers
    [write] for the "drain" event. *)
Lemma writeWithBackpressure_obeys_the_signal :
  let roomy := writeWithBackpressure roomyWrite ["A"; "B"; "C"] [] in
  let full := writeWithBackpressure fullWrite ["A"; "B"; "C"] [] in
  roomy.1.1 = ["A"; "B"; "C"] /\ waitsForDrain roomy.1.2 = false /\
  full.1.1 = ["A"] /\ full.1.2 = ["B"; "C"] /\ waitsForDrain full.1.2 = true /\
  roomy.1.1 <> full.1.1.
Proof. repeat split; discriminate. Qed.

(** C5, amended.  [writeToFile] submits every line whatever the stream
    answers.  [writeWithBackpressure] is backpressure logic of the
    repository's own: one call of its [write()] submits the chunks in
    order up to the first chunk, the last one apart, on which the stream
    reports a full buffer, and waits for "drain" exactly when chunks are
    left; so it submits everything at once to a stream that never reports
    a full buffer and, when there are two chunks or more, the first chunk
    only to a stream that reports one at once.  Over the whole run, each
    "drain" calling [write()] again, it submits exactly the input list in
    order, whatever the answers were.

    In the statement [answers write data wr] are the answers the stream
    [wr] gives when the chunks of [data] are written to it one after the
    other, and [stateAfter write chunks wr] is the stream after that. *)
Theorem writers_and_the_full_buffer_signal :
  forall (Wr : Type) (write : Wr -> string -> Wr * bool) (flush : Wr -> Wr)
         (data : list string) (wr : Wr),
    fst (writeToFile write data wr)
      = map (fun line => line +:+ String LF "") data /\
    (let call := writeWithBackpressure write data wr in
     call.1.1 ++ call.1.2 = data /\
     (data <> [] -> call.1.1 <> []) /\
     ((forall wr chunk, snd (write wr chunk) = true) ->
        call.1.1 = data /\ waitsForDrain call.1.2 = false) /\
     (forall first second others,
        data = first :: second :: others -> snd (write wr first) = false ->
        call.1.1 = [first] /\ call.1.2 = second :: others /\
        waitsForDrain call.1.2 = true) /\
     (forall i : nat,
        (S i < length data)%nat ->
        answers write data wr !! i = Some false ->
        (forall j, (j < i)%nat -> answers write data wr !! j = Some true) ->
        call.1.1 = take (S i) data /\
        call.1.2 = drop (S i) data /\
        call.2 = stateAfter write (take (S i) data) wr /\
        waitsForDrain call.1.2 = true) /\
     ((forall i, (S i < length data)%nat ->
                 answers write data wr !! i = Some true) ->
        call.1.1 = data /\
        call.1.2 = [] /\
        call.2 = stateAfter write data wr /\
        waitsForDrain call.1.2 = false)) /\
    (let run := drainRounds write flush (length data) data wr in
     concat run.1.1 = data /\ run.1.2 = []).
Proof.
  intros Wr write flush data wr. split; [apply writeToFile_submits|]. split.
  - unfold writeWithBackpressure. split; [apply writeLoop_splits|].
    split; [|split; [|split; [|split]]].
    + intros Hdata Hnil.
      pose proof (writeLoop_progress write data wr Hdata) as Hp.
      pose proof (writeLoop_splits write data wr) as Hs.
      rewrite Hnil in Hs. simpl in Hs. rewrite Hs in Hp. lia.
    + intros Hroomy. destruct (writeLoop_roomy write data wr Hroomy) as [-> ->].
      split; reflexivity.
    + intros first second others -> Hfull. simpl.
      destruct (write wr first) as [wr' ok]. simpl in Hfull. subst ok.
      repeat split.
    + intros i Hlen Hi Hbefore.
      rewrite (writeLoop_stops write data wr i Hlen Hi Hbefore). simpl.
      split; [reflexivity|]. split; [reflexivity|]. split; [reflexivity|].
      destruct (drop (S i) data) eqn:Hdrop; [|reflexivity].
      apply (f_equal (@length string)) in Hdrop.
      rewrite length_drop in Hdrop. simpl in Hdrop. lia.
    + intros Hall. rewrite (writeLoop_all write data wr Hall).
      repeat split.
  - apply drainRounds_submits. lia.
Qed.

(** The amended claim at work on the example's five chunks: a stream
    that never reports a full buffer takes them in one call; a stream
    that is full at two chunks takes A and B, and the call leaves C, D
    and E for the "drain" event. *)
Lemma writers_and_the_full_buffer_signal_witness :
  (forall wr chunk, snd (roomyWrite wr chunk) = true) /\
  (writeWithBackpressure roomyWrite ["A"; "B"; "C"; "D"; "E"] []).1.1
  = ["A"; "B"; "C"; "D"; "E"] /\
  waitsForDrain (writeWithBackpressure roomyWrite ["A"; "B"; "C"; "D"; "E"] []).1.2
  = false /\
  answers (markWrite 2) ["A"; "B"; "C"; "D"; "E"] []
  = [true; false; false; false; false] /\
  (writeWithBackpressure (markWrite 2) ["A"; "B"; "C"; "D"; "E"] []).1
  = (["A"; "B"], ["C"; "D"; "E"]).
Proof.
  destruct (writers_and_the_full_buffer_signal (list string) roomyWrite id
              ["A"; "B"; "C"; "D"; "E"] []) as (_ & (_ & _ & Hroomy & _) & _).
  destruct (writers_and_the_full_buffer_signal (list string) (markWrite 2) id
              ["A"; "B"; "C"; "D"; "E"] [])
    as (_ & (_ & _ & _ & _ & Hstops & _) & _).
  split; [intros wr chunk; reflexivity|].
  split; [apply Hroomy; intros wr chunk; reflexivity|].
  split; [apply Hroomy; intros wr chunk; reflexivity|].
  split; [reflexivity|].
  destruct (Hstops 1%nat) as (H1 & H2 & _).
  - simpl. lia.
  - reflexivity.
  - intros j Hj. assert (j = 0%nat) as -> by lia. reflexivity.
  - apply injective_projections; [exact H1 | exact H2].
Defined.

(** The run of the example's five chunks against a stream that always
    reports a full buffer: one chunk per call of [write()], and nothing
    left. *)
Example drainRounds_full :
  (drainRounds fullWrite id 5 ["A"; "B"; "C"; "D"; "E"] []).1
  = ([["A"]; ["B"]; ["C"]; ["D"]; ["E"]], []).
Proof. reflexivity. Qed.

End WriterFacts.

(* ===================================================================== *)
(** * Streams: the CSV parser *)
(* ===================================================================== *)

Module CSVFacts.
Import JsString CSV.

(** A line with its line feed. *)
Definition line (s : jsstring) : jsstring := s ++ [LF].

Example split_example :
  split comma (js "Alice,30,NYC") = [js "Alice"; js "30"; js "NYC"].
Proof. reflexivity. Qed.

Example split_trailing : split LF (line (js "a,b")) = [js "a,b"; []].
Proof. reflexivity. Qed.

(** The white space of the language, at the edges of its ranges: the
    next line U+0085, the Mongolian vowel separator U+180E and the
    zero-width space U+200B are none. *)
Example isWhiteSpace_examples :
  List.map isWhiteSpace
    [8; 9; 10; 11; 12; 13; 14; 31; 32; 33; 133; 159; 160; 161; 5760; 6158;
     8191; 8192; 8202; 8203; 8232; 8233; 8234; 8239; 8287; 12288; 65278;
     65279]%N
  = [false; true; true; true; true; true; false; false; true; false; false;
     false; true; false; true; false; false; true; true; false; true; true;
     false; true; true; true; false; true].
Proof. reflexivity. Qed.

(** Blanks, a tab, a no-break space, an em space and a byte-order mark
    are all trimmed. *)
Example trim_example :
  trim (js "  " ++ [65279; 160] ++ js "Bob" ++ [9; 8195; 32])%N = js "Bob".
Proof. reflexivity. Qed.

(** [split] returns at least one piece. *)
Lemma split_nonempty (sep : N) (s : jsstring) : split sep s <> [].
Proof.
  destruct s as [|c s]; simpl; [discriminate|].
  destruct (c =? sep)%N; [discriminate|].
  destruct (split sep s); discriminate.
Qed.

(** ** What [trim] removes *)

(** Whether a string begins, and whether it ends, with white space. *)
Definition whiteAtStart (s : jsstring) : bool :=
  match s with [] => false | c :: _ => isWhiteSpace c end.
Definition whiteAtEnd (s : jsstring) : bool := whiteAtStart (rev s).

Lemma trimStart_spec (s : jsstring) :
  exists pre,
    s = pre ++ trimStart s /\
    forallb isWhiteSpace pre = true /\
    whiteAtStart (trimStart s) = false.
Proof.
  induction s as [|c s (pre & Heq & Hpre & Hstart)].
  - exists []. repeat split.
  - cbn [trimStart]. destruct (isWhiteSpace c) eqn:Hc.
    + exists (c :: pre). split; [cbn [app]; congruence|].
      split; [cbn [forallb]; rewrite Hc, Hpre; reflexivity | exact Hstart].
    + exists []. split; [reflexivity|]. split; [reflexivity | exact Hc].
Qed.

(** [trim] cuts white space, and nothing else, from both ends, until
    there is none left at either end. *)
Lemma trim_spec (s : jsstring) :
  exists pre post,
    s = pre ++ trim s ++ post /\
    forallb isWhiteSpace pre = true /\
    forallb isWhiteSpace post = true /\
    whiteAtStart (trim s) = false /\
    whiteAtEnd (trim s) = false.
Proof.
  destruct (trimStart_spec s) as (pre & Hs & Hpre & Hstart).
  destruct (trimStart_spec (rev (trimStart s))) as (tsop & Hr & Htsop & Hend).
  unfold trim. set (t2 := trimStart (rev (trimStart s))) in *.
  assert (Ht1 : trimStart s = rev t2 ++ rev tsop).
  { rewrite <- rev_app_distr, <- Hr, rev_involutive. reflexivity. }
  exists pre, (rev tsop).
  split; [rewrite <- Ht1; exact Hs|]. split; [exact Hpre|]. split; [|split].
  - rewrite forallb_forall. intros c Hc. apply in_rev in Hc.
    rewrite forallb_forall in Htsop. exact (Htsop c Hc).
  - rewrite Ht1 in Hstart. destruct (rev t2) as [|c r]; [reflexivity | exact Hstart].
  - unfold whiteAtEnd. rewrite rev_involutive. exact Hend.
Qed.

(** So a string trims to nothing exactly when it is white space
    throughout. *)
Lemma truthy_trim (l : jsstring) :
  truthy (trim l) = true <-> exists c, c ∈ l /\ isWhiteSpace c = false.
Proof.
  destruct (trim_spec l) as (pre & post & Hl & Hpre & Hpost & Hstart & _).
  split.
  - intros Ht. destruct (trim l) as [|c t]; [discriminate|].
    exists c. split; [|exact Hstart].
    rewrite Hl. apply elem_of_app. right. apply elem_of_app. left. left.
  - intros (c & Hc & Hwhite). destruct (trim l) as [|c' t]; [|reflexivity].
    exfalso. rewrite Hl in Hc. cbn [app] in Hc.
    apply elem_of_app in Hc as [Hc | Hc]; apply list_elem_of_In in Hc.
    + rewrite forallb_forall in Hpre. rewrite (Hpre c Hc) in Hwhite. discriminate.
    + rewrite forallb_forall in Hpost. rewrite (Hpost c Hc) in Hwhite. discriminate.
Qed.

(** ** The parser, as the claim describes it *)

(** All lines written, chunk after chunk: each chunk is split on its own. *)
Definition linesWritten (chunks : list jsstring) : list jsstring :=
  concat (List.map (split LF) chunks).

(** A line that is not blank. *)
Definition notBlank (l : jsstring) : bool := truthy (trim l).

(** The value the row object holds under [name]: that of the last header
    field, from position [i] on, whose trimmed text is [name]. *)
Fixpoint lastField (name : jsstring) (i : nat) (header values : list jsstring)
  : option (option jsstring) :=
  match header with
  | [] => None
  | key :: header' =>
      match lastField name (S i) header' values with
      | Some v => Some v
      | None =>
          if bool_decide (trim key = name) then Some (trim <$> (values !! i))
          else None
      end
  end.

(** The JSON object of a row. *)
Definition rowObject (header : list jsstring) (l : jsstring)
  : gmap jsstring jsstring :=
  JSON_stringify (reduceFrom 0 header (split comma l) ∅).

(** The parser described: the first line written is the header; every
    later line that is not blank gives one object. *)
Definition parsed (chunks : list jsstring) : list (gmap jsstring jsstring) :=
  match linesWritten chunks with
  | [] => []
  | first :: later =>
      List.map (rowObject (split comma first)) (List.filter notBlank later)
  end.

(** ** The code against the description *)

Lemma reduceFrom_lookup (name : jsstring) (header values : list jsstring) :
  forall (i : nat) (acc : JsObject),
    reduceFrom i header values acc !! name =
      if bool_decide (name = js "__proto__") then acc !! name
      else
        match lastField name i header values with
        | Some v => Some v
        | None => acc !! name
        end.
Proof.
  induction header as [|key header IH]; intros i acc.
  - simpl. destruct (bool_decide (name = js "__proto__")); reflexivity.
  - cbn [reduceFrom lastField]. rewrite IH.
    destruct (bool_decide (name = js "__proto__")) eqn:Hproto.
    + unfold assign. destruct (bool_decide (trim key = js "__proto__")) eqn:Hkey;
        [reflexivity|].
      apply bool_decide_eq_true in Hproto. apply bool_decide_eq_false in Hkey.
      apply lookup_insert_ne. congruence.
    + destruct (lastField name (S i) header values) as [v|]; [reflexivity|].
      apply bool_decide_eq_false in Hproto.
      destruct (bool_decide (trim key = name)) eqn:Hkey.
      * apply bool_decide_eq_true in Hkey. subst name. unfold assign.
        rewrite bool_decide_eq_false_2 by exact Hproto.
        apply lookup_insert_eq.
      * apply bool_decide_eq_false in Hkey. unfold assign.
        destruct (bool_decide (trim key = js "__proto__")); [reflexivity|].
        apply lookup_insert_ne. exact Hkey.
Qed.

(** When the trimmed header fields differ from one another, the last
    field of a name is the only one. *)
Lemma lastField_unique (header values : list jsstring) :
  forall (i j : nat) (key : jsstring),
    NoDup (List.map trim header) ->
    header !! j = Some key ->
    lastField (trim key) i header values = Some (trim <$> (values !! (i + j)%nat)).
Proof.
  induction header as [|k header IH]; intros i j key Hnodup Hj; [discriminate|].
  simpl in Hnodup. apply NoDup_cons in Hnodup as [Hk Hnodup].
  destruct j as [|j]; simpl in Hj.
  - injection Hj as ->. cbn [lastField].
    assert (Hnone : lastField (trim key) (S i) header values = None).
    { clear IH Hnodup. revert i.
      induction header as [|k' header IH']; intros i; [reflexivity|].
      cbn [lastField]. rewrite IH'.
      - destruct (bool_decide (trim k' = trim key)) eqn:He; [|reflexivity].
        apply bool_decide_eq_true in He. exfalso. apply Hk. simpl.
        rewrite He. left.
      - intros Hin. apply Hk. simpl. right. exact Hin. }
    rewrite Hnone, bool_decide_eq_true_2 by reflexivity.
    rewrite Nat.add_0_r. reflexivity.
  - cbn [lastField]. rewrite (IH (S i) j key Hnodup Hj).
    replace (S i + j)%nat with (i + S j)%nat by lia. reflexivity.
Qed.

Lemma foldl_eachLine_header (h : list jsstring) (ls : list jsstring) :
  forall pushed0 : list (gmap jsstring jsstring),
    foldl eachLine {| header := Some h; pushed := pushed0 |} ls
    = {| header := Some h;
         pushed := pushed0 ++ List.map (rowObject h) (List.filter notBlank ls) |}.
Proof.
  induction ls as [|l ls IH]; intros pushed0.
  - simpl. rewrite app_nil_r. reflexivity.
  - cbn [foldl List.filter]. unfold eachLine at 2. cbn [header pushed].
    unfold notBlank at 1.
    destruct (truthy (trim l)).
    + rewrite IH. cbn [List.map]. rewrite <- app_assoc. reflexivity.
    + apply IH.
Qed.

Lemma foldl_transform (chunks : list jsstring) :
  forall st : CSVParser,
    foldl _transform st chunks = foldl eachLine st (linesWritten chunks).
Proof.
  induction chunks as [|chunk chunks IH]; intros st; [reflexivity|].
  simpl. unfold linesWritten. simpl. rewrite foldl_app. apply IH.
Qed.

Lemma writeChunks_parsed (chunks : list jsstring) :
  pushed (writeChunks chunks) = parsed chunks /\
  header (writeChunks chunks) = split comma <$> head (linesWritten chunks).
Proof.
  unfold writeChunks, parsed. rewrite foldl_transform.
  destruct (linesWritten chunks) as [|first later]; [split; reflexivity|].
  simpl foldl.
  change (eachLine newCSVParser first)
    with {| header := Some (split comma first); pushed := [] |}.
  rewrite foldl_eachLine_header. split; reflexivity.
Qed.

(** A string without a line feed is one line. *)
Fixpoint hasLF (s : jsstring) : bool :=
  match s with
  | [] => false
  | c :: s' => (c =? LF)%N || hasLF s'
  end.

Lemma split_one_line (s : jsstring) : hasLF s = false -> split LF s = [s].
Proof.
  induction s as [|c s IH]; intros H; [reflexivity|].
  simpl in H. apply orb_false_iff in H as [Hc Hs].
  simpl. rewrite Hc, (IH Hs). reflexivity.
Qed.

Lemma hasLF_app (a b : jsstring) : hasLF (a ++ b) = hasLF a || hasLF b.
Proof.
  induction a as [|c a IH]; [reflexivity|].
  simpl. rewrite IH, orb_assoc. reflexivity.
Qed.

(** The example of the source: a header and two rows, one chunk each. *)
Example csv_example :
  pushed (writeChunks [line (js "name,age,city"); line (js "Alice,30,NYC");
                       line (js "Bob,25,LA")])
  = [ <[js "name" := js "Alice"]> (<[js "age" := js "30"]> (<[js "city" := js "NYC"]> ∅));
      <[js "name" := js "Bob"]> (<[js "age" := js "25"]> (<[js "city" := js "LA"]> ∅)) ].
Proof. vm_compute. reflexivity. Qed.

(** A row cut in two by the chunking gives two objects, the second
    without the fields it has no value for. *)
Example csv_row_cut_in_two :
  pushed (writeChunks [js "a,b" ++ [LF] ++ js "1,"; line (js "2")])
  = [ <[js "a" := js "1"]> (<[js "b" := []]> ∅); <[js "a" := js "2"]> ∅ ].
Proof. vm_compute. reflexivity. Qed.

(** C10, as stated, fails in three places.  (1) A later line of blanks,
    or of a no-break space, is not empty, and the parser emits nothing
    for it.  (2) When two header fields have the same trimmed text, the
    object holds under that name the value at the position of the last
    of them: with the header [a,a] and the row [1,2] the field at
    position 0 is mapped to "2".  (3) A header field [__proto__] is
    mapped to nothing: with the header [__proto__,a] and the row [1,2]
    the object is [{a: "2"}]. *)
Lemma csv_blank_lines_and_repeated_fields :
  let blank := [line (js "name,age"); line (js "  "); line [160%N]] in
  linesWritten blank = [js "name,age"; []; js "  "; []; [160%N]; []] /\
  truthy (js "  ") = true /\
  truthy [160%N] = true /\
  pushed (writeChunks blank) = [] /\
  let repeated := [line (js "a,a"); line (js "1,2")] in
  split comma (js "1,2") !! 0%nat = Some (js "1") /\
  pushed (writeChunks repeated) = [ <[js "a" := js "2"]> ∅ ] /\
  let proto := [line (js "__proto__,a"); line (js "1,2")] in
  header (writeChunks proto) = Some [js "__proto__"; js "a"] /\
  pushed (writeChunks proto) = [ <[js "a" := js "2"]> ∅ ].
Proof. vm_compute. repeat split; reflexivity. Qed.

(** C10, amended.  For every sequence of chunks written to a fresh
    parser: each chunk is split into lines on its own (so a line cut in
    two by the chunking is two lines); the first line written becomes the
    header; and every later line that is not blank, one that is not empty
    after trimming, gives exactly one object, in order, and no other line
    gives any.  The object holds nothing under the name [__proto__]; it
    maps any other name to the trimmed value at the position of the last
    header field whose trimmed text is that name, and holds nothing under
    a name whose value is missing; when the trimmed header fields differ
    from one another, this is the trimmed value at the position of the
    field itself.  Trimming cuts the white space of the language, and
    nothing else, from both ends until none is left there; so a line is
    blank exactly when it holds white space only. *)
Theorem csv_parser_rows :
  forall chunks : list jsstring,
    header (writeChunks chunks) = split comma <$> head (linesWritten chunks) /\
    (forall (chunk : jsstring) (others : list jsstring),
        chunks = chunk :: others ->
        exists first, head (split LF chunk) = Some first /\
                      header (writeChunks chunks) = Some (split comma first)) /\
    pushed (writeChunks chunks) =
      match linesWritten chunks with
      | [] => []
      | first :: later =>
          List.map (rowObject (split comma first)) (List.filter notBlank later)
      end /\
    (forall (h : list jsstring) (l name : jsstring),
        rowObject h l !! name =
          if bool_decide (name = js "__proto__") then None
          else lastField name 0 h (split comma l) ≫= id) /\
    (forall (h : list jsstring) (l key : jsstring) (j : nat),
        NoDup (List.map trim h) -> h !! j = Some key ->
        trim key <> js "__proto__" ->
        rowObject h l !! trim key = trim <$> (split comma l !! j)) /\
    (forall a b : jsstring,
        hasLF a = false -> hasLF b = false ->
        linesWritten [a; b] = [a; b] /\ linesWritten [a ++ b] = [a ++ b]) /\
    (forall s : jsstring,
        exists pre post,
          s = pre ++ trim s ++ post /\
          forallb isWhiteSpace pre = true /\
          forallb isWhiteSpace post = true /\
          whiteAtStart (trim s) = false /\
          whiteAtEnd (trim s) = false) /\
    (forall l : jsstring,
        notBlank l = true <-> exists c, c ∈ l /\ isWhiteSpace c = false).
Proof.
  intros chunks.
  destruct (writeChunks_parsed chunks) as [Hpushed Hheader].
  split; [exact Hheader|]. split.
  { intros chunk others ->. rewrite Hheader. unfold linesWritten. simpl.
    pose proof (split_nonempty LF chunk) as Hne.
    destruct (split LF chunk) as [|first lines]; [congruence|].
    exists first. split; reflexivity. }
  split; [exact Hpushed|].
  assert (Hrow : forall h l name,
             rowObject h l !! name =
               if bool_decide (name = js "__proto__") then None
               else lastField name 0 h (split comma l) ≫= id).
  { intros h l name. unfold rowObject, JSON_stringify.
    rewrite lookup_omap, reduceFrom_lookup.
    destruct (bool_decide (name = js "__proto__"));
      [rewrite lookup_empty; reflexivity|].
    destruct (lastField name 0 h (split comma l)); [reflexivity|].
    rewrite lookup_empty. reflexivity. }
  split; [exact Hrow|]. split; [|split; [|split]].
  - intros h l key j Hnodup Hj Hproto. rewrite Hrow.
    rewrite bool_decide_eq_false_2 by exact Hproto.
    rewrite (lastField_unique h (split comma l) 0 j key Hnodup Hj). reflexivity.
  - intros a b Ha Hb. unfold linesWritten. simpl.
    rewrite (split_one_line a Ha), (split_one_line b Hb).
    rewrite split_one_line by (rewrite hasLF_app, Ha, Hb; reflexivity).
    split; reflexivity.
  - exact trim_spec.
  - intros l. unfold notBlank. apply truthy_trim.
Qed.

(** The amended claim at work: blanks around header fields and values
    are trimmed, and a field without a value has no entry. *)
Lemma csv_parser_rows_witness :
  let h := split comma (js "name, age ,city") in
  let l := js "Alice , 30" in
  NoDup (List.map trim h) /\
  h !! 1%nat = Some (js " age ") /\
  trim (js " age ") <> js "__proto__" /\
  rowObject h l !! trim (js " age ") = trim <$> (split comma l !! 1%nat) /\
  trim <$> (split comma l !! 1%nat) = Some (js "30") /\
  rowObject h l !! js "city" = None.
Proof.
  assert (Hnodup : NoDup (List.map trim (split comma (js "name, age ,city")))).
  { apply (bool_decide_unpack _). vm_compute. exact I. }
  assert (Hproto : trim (js " age ") <> js "__proto__") by discriminate.
  destruct (csv_parser_rows []) as (_ & _ & _ & _ & Hfield & _).
  split; [exact Hnodup|]. split; [reflexivity|]. split; [exact Hproto|].
  split; [exact (Hfield _ (js "Alice , 30") (js " age ") 1%nat Hnodup eq_refl Hproto)|].
  split; vm_compute; reflexivity.
Defined.

End CSVFacts.

(* ===================================================================== *)
(** * Closures: the calculator, the click handler, closures in a loop *)
(* ===================================================================== *)

Module ClosureMoreFacts.
Import Closure ClosureMore.

(** What an operation computes. *)
Definition resultOf (op : CalcOp) : number :=
  match op with
  | OpAdd a b => (a + b)%float
  | OpSubtract a b => (a - b)%float
  end.

Definition nameOf (op : CalcOp) : string :=
  match op with
  | OpAdd _ _ => "Addition"
  | OpSubtract _ _ => "Subtraction"
  end.

Lemma callCalc_spec (op : CalcOp) (s : Calc) :
  callCalc op s =
    (resultOf op,
     {| lastResult := resultOf op;
        console := console s ++ [{| operation := nameOf op; logged := resultOf op |}] |}).
Proof. destruct op; reflexivity. Qed.

Lemma default_last_cons {A} (l : list A) :
  forall d x : A, default d (last (x :: l)) = default x (last l).
Proof.
  induction l as [|y l IH]; intros d x; [reflexivity|].
  change (last (x :: y :: l)) with (last (y :: l)).
  rewrite (IH d y), (IH x y). reflexivity.
Qed.

Lemma runCalc_spec (ops : list CalcOp) :
  forall s : Calc,
    (runCalc ops s).1 = map resultOf ops /\
    lastResult (runCalc ops s).2 = default (lastResult s) (last (map resultOf ops)) /\
    console (runCalc ops s).2
      = console s ++ map (fun op => {| operation := nameOf op; logged := resultOf op |}) ops.
Proof.
  induction ops as [|op ops IH]; intros s.
  - simpl. rewrite app_nil_r. repeat split.
  - simpl. rewrite callCalc_spec.
    specialize (IH {| lastResult := resultOf op;
                      console := console s ++
                        [{| operation := nameOf op; logged := resultOf op |}] |}).
    destruct (runCalc ops _) as [rs s'']. simpl in *.
    destruct IH as (-> & Hlast & Hconsole). split; [reflexivity|]. split.
    + rewrite Hlast. symmetry. apply default_last_cons.
    + rewrite Hconsole, <- app_assoc. reflexivity.
Qed.

(** X1.  After any sequence of [Calculator.add] and [subtract] calls,
    [getLastResult()] returns what the last of them returned (0 when
    there was none), and the console holds one line per call, in order,
    naming the operation and carrying the value the call returned. *)
Theorem calculator_remembers_last_result :
  forall ops : list CalcOp,
    let run := runCalc ops Calculator in
    fst (getLastResult run.2) = default 0%float (last run.1) /\
    run.1 = map resultOf ops /\
    map logged (console run.2) = run.1 /\
    map operation (console run.2) = map nameOf ops.
Proof.
  intros ops run. subst run.
  destruct (runCalc_spec ops Calculator) as (Hrs & Hlast & Hconsole).
  simpl in Hlast, Hconsole. rewrite Hrs, Hconsole.
  split; [exact Hlast|]. split; [reflexivity|].
  rewrite !map_map. split; reflexivity.
Qed.

(** The numbers from [from] on, [n] of them. *)
Fixpoint countFrom (from : Z) (n : nat) : list Z :=
  match n with
  | O => []
  | S n' => from :: countFrom (from + 1) n'
  end.

Lemma clicks_spec (n : nat) :
  forall h : ClickHandler,
    (clicks n h).1
      = map (fun k => {| element := elementId h; times := k |})
            (countFrom (clickCount h + 1) n) /\
    (clicks n h).2
      = {| elementId := elementId h; clickCount := clickCount h + Z.of_nat n |}.
Proof.
  induction n as [|n IH]; intros h.
  - simpl. rewrite Z.add_0_r. destruct h; split; reflexivity.
  - cbn [clicks]. unfold handleClick.
    specialize (IH {| elementId := elementId h; clickCount := clickCount h + 1 |}).
    destruct (clicks n _) as [ls h'']. simpl in *.
    destruct IH as [-> ->]. split; [reflexivity|]. f_equal. lia.
Qed.

Lemma countFrom_length (n : nat) :
  forall from : Z, length (countFrom from n) = n.
Proof. induction n as [|n IH]; intros from; simpl; [|rewrite IH]; reflexivity. Qed.

Lemma countFrom_lookup (n : nat) :
  forall (from : Z) (k : nat),
    (k < n)%nat -> countFrom from n !! k = Some (from + Z.of_nat k).
Proof.
  induction n as [|n IH]; intros from k Hk; [lia|].
  destruct k as [|k]; simpl.
  - f_equal. lia.
  - rewrite IH by lia. f_equal. lia.
Qed.

(** X2.  The handler made by [setupClickHandler(id)] counts its own
    calls: of any [n] calls, call number [k + 1] prints the line for
    element [id] with the count [k + 1], and there are [n] lines. *)
Theorem click_handler_counts_its_calls :
  forall (id : string) (n k : nat),
    let run := clicks n (setupClickHandler id) in
    length run.1 = n /\
    clickCount run.2 = Z.of_nat n /\
    ((k < n)%nat ->
       run.1 !! k = Some {| element := id; times := Z.of_nat k + 1 |}).
Proof.
  intros id n k run. subst run.
  destruct (clicks_spec n (setupClickHandler id)) as [-> ->]. simpl.
  split; [|split; [reflexivity|]].
  - rewrite length_map. apply countFrom_length.
  - intros Hk. rewrite list_lookup_fmap, (countFrom_lookup n) by exact Hk.
    simpl. do 2 f_equal. lia.
Qed.

Lemma click_handler_counts_its_calls_witness :
  (1 < 2)%nat /\
  (clicks 2 (setupClickHandler "submit-btn")).1 !! 1%nat
  = Some {| element := "submit-btn"; times := 2 |}.
Proof.
  split; [lia|].
  destruct (click_handler_counts_its_calls "submit-btn" 2 1) as (_ & _ & H).
  apply H. lia.
Defined.

(** The [var] loop with [k] iterations to go: every closure it adds
    captures the one cell, which ends at the bound. *)
Lemma varLoop_spec (bound k : nat) :
  forall (fuel : nat) (hs0 : list nat),
    (k < fuel)%nat -> (k <= bound)%nat ->
    varLoop fuel (Z.of_nat bound) 0
      {| handlers := hs0; cells := [Z.of_nat bound - Z.of_nat k] |}
    = {| handlers := hs0 ++ replicate k 0%nat; cells := [Z.of_nat bound] |}.
Proof.
  induction k as [|k IH]; intros fuel hs0 Hfuel Hk;
    (destruct fuel as [|fuel]; [lia|]); cbn [varLoop cells handlers].
  - change ([Z.of_nat bound - Z.of_nat 0] !! 0%nat)
      with (Some (Z.of_nat bound - Z.of_nat 0)).
    cbv beta iota.
    replace (Z.of_nat bound - Z.of_nat 0) with (Z.of_nat bound) by lia.
    rewrite Z.ltb_irrefl. simpl. rewrite app_nil_r. reflexivity.
  - change ([Z.of_nat bound - Z.of_nat (S k)] !! 0%nat)
      with (Some (Z.of_nat bound - Z.of_nat (S k))).
    cbv beta iota.
    assert (Hlt : (Z.of_nat bound - Z.of_nat (S k) <? Z.of_nat bound) = true)
      by (apply Z.ltb_lt; lia).
    rewrite Hlt.
    change (<[0%nat := Z.of_nat bound - Z.of_nat (S k) + 1]>
              [Z.of_nat bound - Z.of_nat (S k)])
      with [Z.of_nat bound - Z.of_nat (S k) + 1].
    replace (Z.of_nat bound - Z.of_nat (S k) + 1)
      with (Z.of_nat bound - Z.of_nat k) by lia.
    rewrite IH by lia. rewrite <- app_assoc. reflexivity.
Qed.

(** The [let] loop with [k] iterations to go: every closure it adds
    captures a cell of its own, and the cells hold consecutive numbers. *)
Lemma letLoop_spec (bound k : nat) :
  forall (fuel : nat) (hs0 : list nat) (pre : list Z),
    (k < fuel)%nat -> (k <= bound)%nat ->
    letLoop fuel (Z.of_nat bound) (length pre)
      {| handlers := hs0; cells := pre ++ [Z.of_nat bound - Z.of_nat k] |}
    = {| handlers := hs0 ++ seq (length pre) k;
         cells := pre ++ countFrom (Z.of_nat bound - Z.of_nat k) (S k) |}.
Proof.
  induction k as [|k IH]; intros fuel hs0 pre Hfuel Hk;
    (destruct fuel as [|fuel]; [lia|]); cbn [letLoop cells handlers].
  - rewrite list_lookup_middle by reflexivity. cbv beta iota.
    replace (Z.of_nat bound - Z.of_nat 0) with (Z.of_nat bound) by lia.
    rewrite Z.ltb_irrefl. simpl. rewrite app_nil_r. reflexivity.
  - rewrite list_lookup_middle by reflexivity. cbv beta iota.
    assert (Hlt : (Z.of_nat bound - Z.of_nat (S k) <? Z.of_nat bound) = true)
      by (apply Z.ltb_lt; lia).
    rewrite Hlt.
    replace (Z.of_nat bound - Z.of_nat (S k) + 1)
      with (Z.of_nat bound - Z.of_nat k) by lia.
    specialize (IH fuel (hs0 ++ [length pre])
                  (pre ++ [Z.of_nat bound - Z.of_nat (S k)])).
    rewrite IH by lia. rewrite length_app, Nat.add_1_r.
    f_equal.
    + rewrite <- app_assoc. reflexivity.
    + rewrite <- app_assoc.
      change (countFrom (Z.of_nat bound - Z.of_nat (S k)) (S (S k)))
        with ((Z.of_nat bound - Z.of_nat (S k))
                :: countFrom (Z.of_nat bound - Z.of_nat (S k) + 1) (S k)).
      replace (Z.of_nat bound - Z.of_nat (S k) + 1)
        with (Z.of_nat bound - Z.of_nat k) by lia.
      reflexivity.
Qed.

Lemma createHandlersWrongUpTo_spec (bound : nat) :
  createHandlersWrongUpTo bound
  = {| handlers := replicate bound 0%nat; cells := [Z.of_nat bound] |}.
Proof.
  unfold createHandlersWrongUpTo.
  pose proof (varLoop_spec bound bound (S bound) []) as H.
  rewrite Z.sub_diag in H. apply H; lia.
Qed.

Lemma createHandlersCorrectUpTo_spec (bound : nat) :
  createHandlersCorrectUpTo bound
  = {| handlers := seq 0 bound; cells := countFrom 0 (S bound) |}.
Proof.
  unfold createHandlersCorrectUpTo.
  pose proof (letLoop_spec bound bound (S bound) [] []) as H.
  rewrite Z.sub_diag in H. apply H; lia.
Qed.

(** The source's two functions, called as in the example. *)
Example handlers_example :
  map (callHandler createHandlersWrong) [0; 1; 2]%nat = [Some 3; Some 3; Some 3] /\
  map (callHandler createHandlersCorrect) [0; 1; 2]%nat = [Some 0; Some 1; Some 2].
Proof. split; reflexivity. Qed.

(** X3.  Closures made in a loop.  With [var] all closures share the one
    binding of [i], so after the loop every handler prints the bound the
    loop ran to (3 in the source), whatever its place in the array; with
    [let] each closure has the binding of its iteration, so handler [j]
    prints [j].  Both arrays hold one handler per iteration. *)
Theorem loop_closures_share_var_not_let :
  forall bound j : nat,
    (j < bound)%nat ->
    callHandler (createHandlersWrongUpTo bound) j = Some (Z.of_nat bound) /\
    callHandler (createHandlersCorrectUpTo bound) j = Some (Z.of_nat j) /\
    length (handlers (createHandlersWrongUpTo bound)) = bound /\
    length (handlers (createHandlersCorrectUpTo bound)) = bound.
Proof.
  intros bound j Hj.
  rewrite createHandlersWrongUpTo_spec, createHandlersCorrectUpTo_spec.
  unfold callHandler. simpl handlers. simpl cells.
  rewrite length_replicate, length_seq.
  split; [|split; [|split; reflexivity]].
  - rewrite lookup_replicate_2 by exact Hj. reflexivity.
  - rewrite lookup_seq_lt by exact Hj. simpl.
    change (0 :: countFrom (0 + 1) bound) with (countFrom 0 (S bound)).
    rewrite countFrom_lookup by lia. f_equal.
Qed.

Lemma loop_closures_share_var_not_let_witness :
  (0 < 3)%nat /\
  callHandler createHandlersWrong 0 = Some 3 /\
  callHandler createHandlersCorrect 0 = Some 0.
Proof.
  split; [lia|].
  destruct (loop_closures_share_var_not_let 3 0) as (Hwrong & Hcorrect & _);
    [lia|].
  split; [exact Hwrong | exact Hcorrect].
Defined.

End ClosureMoreFacts.

(* ===================================================================== *)
(** * Closures: what the rate limiter and the memoizer guarantee *)
(* ===================================================================== *)

Module GuaranteeFacts.
Import Closure.
Import Num.
Import RateLimiterFacts MemoFacts.

(** A test that implies another passes no more elements. *)
Lemma countIf_le {A} (p q : A -> bool) (l : list A) :
  Forall (fun x => p x = true -> q x = true) l ->
  countIf p l <= countIf q l.
Proof.
  induction 1 as [|x l Hx _ IH]; simpl; [lia|].
  destruct (p x); [rewrite (Hx eq_refl); lia | destruct (q x); lia].
Qed.

(** The timestamps between [t0] and [t0 + windowMs], the sum being the
    exact one. *)
Definition within (windowMs : Num) (t0 t : Z) : bool :=
  (t0 <=? t) && le (ofZ t) (plus (ofZ t0) windowMs).

(** What lies in a stretch that holds [now] as well, and is not later
    than [now], lies in the window at [now]. *)
Lemma within_inWindow (windowMs : Num) (t0 t now : Z) :
  t <= now ->
  within windowMs t0 now = true -> within windowMs t0 t = true ->
  inWindow windowMs now t = true.
Proof.
  intros Ht Hnow Hin. unfold within in Hnow, Hin.
  apply andb_true_iff in Hnow as [_ Hnow]. apply andb_true_iff in Hin as [Hin _].
  apply Z.leb_le in Hin. unfold inWindow. apply andb_true_iff. split.
  - exact (NumFacts.stretch_in_window windowMs t0 t now Hin Hnow).
  - apply Z.leb_le, Ht.
Qed.

Section Limiter.
Context {W A R : Type}.
Variables maxCalls windowMs : Num.
Variable fn : A -> W -> R * W.
(** A whole number that [maxCalls] does not exceed. *)
Variable k : Z.
Hypothesis maxCalls_le_k : le maxCalls (ofZ k) = true.
Hypothesis windowMs_number : windowMs <> NaN.

(** What a run keeps true of everything recorded so far, no reading
    having exceeded [b]: no stretch of [windowMs] milliseconds holds more
    than [k] recorded calls. *)
Definition bounded (history : list Z) (b : Z) : Prop :=
  Forall (fun t => t <= b) history /\
  forall t0, countIf (within windowMs t0) history <= k.

Lemma limited_bounded (history : list Z) (st : Limiter) (b now : Z)
      (args : A) (w : W) :
  exactAt windowMs now = true ->
  b <= now -> linked windowMs history st b -> bounded history b ->
  let r := limited maxCalls windowMs fn now args st w in
  bounded (history ++ (if wentThrough r.1.1 then [now] else [])) now.
Proof.
  intros Hexact Hb Hlinked [Hle Hwin].
  assert (Hle' : Forall (fun t => t <= now) history).
  { eapply Forall_impl; [exact Hle | intros t Ht; simpl in Ht; lia]. }
  pose proof (kept_is_window windowMs history st b now windowMs_number
                Hexact Hb Hlinked) as Hkept.
  destruct (limited_cases maxCalls windowMs fn now args st w)
    as [[Hlt ->] | [_ ->]]; cbn [fst snd wentThrough].
  - pose proof (NumFacts.lt_le_bound _ _ _ Hlt maxCalls_le_k) as Hroom.
    split.
    + apply Forall_app. split; [exact Hle'|]. constructor; [lia | constructor].
    + intros t0. rewrite CounterFacts.countIf_app. cbn [countIf].
      destruct (within windowMs t0 now) eqn:Hnow; [|specialize (Hwin t0); lia].
      assert (Hsub : countIf (within windowMs t0) history
                     <= countInWindow windowMs now history).
      { unfold countInWindow. apply countIf_le.
        eapply Forall_impl; [exact Hle'|]. intros t Ht Hin. simpl in Ht.
        exact (within_inWindow windowMs t0 t now Ht Hnow Hin). }
      lia.
  - rewrite app_nil_r. split; [exact Hle' | exact Hwin].
Qed.

Lemma runLimited_bounded (cs : list (Z * A)) :
  forall (history : list Z) (st : Limiter) (w : W) (b : Z),
    linked windowMs history st b -> bounded history b ->
    nondecreasing (b :: map fst cs) = true ->
    forallb (exactAt windowMs) (map fst cs) = true ->
    forall t0,
      countIf (within windowMs t0)
        (history ++ recorded maxCalls windowMs fn cs st w) <= k.
Proof.
  induction cs as [|[now args] cs IH]; intros history st w b Hl Hb Hs Hex t0.
  - simpl. rewrite app_nil_r. apply Hb.
  - change (nondecreasing (b :: now :: map fst cs))
      with ((b <=? now) && nondecreasing (now :: map fst cs)) in Hs.
    apply andb_true_iff in Hs as [Hle Hs]. apply Z.leb_le in Hle.
    cbn [map fst forallb] in Hex. apply andb_true_iff in Hex as [Hnow Hex].
    pose proof (limited_linked maxCalls windowMs fn history st b now args w
                  Hnow Hle Hl) as Hstep1.
    pose proof (limited_bounded history st b now args w Hnow Hle Hl Hb) as Hstep2.
    simpl in Hstep1, Hstep2. simpl.
    destruct (limited maxCalls windowMs fn now args st w) as [[r st'] w'].
    simpl in Hstep1, Hstep2.
    rewrite app_assoc. apply (IH _ st' w' now Hstep1 Hstep2 Hs Hex).
Qed.
End Limiter.

(** No stretch of NaN milliseconds holds anything. *)
Lemma within_NaN (t0 : Z) (l : list Z) : countIf (within NaN t0) l = 0.
Proof.
  apply countIf_none, Forall_forall. intros t _. unfold within.
  apply andb_false_iff. right. reflexivity.
Qed.

(** X4.  The limit holds: when the wrapper is called at clock readings
    that never go back, and binary64 computes each difference
    [now - windowMs] without rounding (as it does for a whole
    [windowMs]), no stretch of [windowMs] milliseconds, wherever it
    starts, holds more calls that went through to [fn] than a whole
    number [k >= 0] that [maxCalls] does not exceed.  So it holds no more
    than [maxCalls] of them when [maxCalls] is a whole number and not
    negative, and no more than the next whole number when [maxCalls] has
    a fraction (three for 2.5). *)
Theorem limiter_keeps_the_limit :
  forall (W A R : Type) (maxCalls windowMs : Num) (fn : A -> W -> R * W)
         (cs : list (Z * A)) (w0 : W) (t0 k : Z),
    0 <= k ->
    le maxCalls (ofZ k) = true ->
    nondecreasing (map fst cs) = true ->
    forallb (exactAt windowMs) (map fst cs) = true ->
    countIf (within windowMs t0)
      (recorded maxCalls windowMs fn cs createRateLimiter w0) <= k.
Proof.
  intros W A R maxCalls windowMs fn cs w0 t0 k Hk Hmax Hclock Hexact.
  assert (Hcases : windowMs = NaN \/ windowMs <> NaN)
    by (destruct windowMs; [right | right | right | left]; congruence).
  destruct Hcases as [-> | Hw]; [rewrite within_NaN; exact Hk|].
  set (b := hd 0 (map fst cs)).
  assert (Hs : nondecreasing (b :: map fst cs) = true).
  { unfold b. destruct cs as [|[t a] cs]; [reflexivity|].
    change (nondecreasing (hd 0 (map fst ((t, a) :: cs)) :: map fst ((t, a) :: cs)))
      with ((t <=? t) && nondecreasing (map fst ((t, a) :: cs))).
    rewrite Z.leb_refl. exact Hclock. }
  apply (runLimited_bounded maxCalls windowMs fn k Hmax Hw cs []
           createRateLimiter w0 b).
  - exists []. repeat split; constructor.
  - split; [constructor | intros t; simpl; exact Hk].
  - exact Hs.
  - exact Hexact.
Qed.

(** The limit at work: of seven calls, 300 ms apart, to a wrapper for
    three calls per second, no second holds more than three; nor does
    one when the wrapper is made for 2.5 calls per second. *)
Lemma limiter_keeps_the_limit_witness :
  let cs := [(0, "a"); (300, "b"); (600, "c"); (900, "d"); (1200, "e");
             (1500, "f"); (1800, "g")] in
  0 <= 3 /\
  le (ofZ 3) (ofZ 3) = true /\
  le (ofFloat 2.5) (ofZ 3) = true /\
  nondecreasing (map fst cs) = true /\
  forallb (exactAt (ofZ 1000)) (map fst cs) = true /\
  recorded (ofZ 3) (ofZ 1000) printsIt cs createRateLimiter []
  = [0; 300; 600; 1200; 1500; 1800] /\
  countIf (within (ofZ 1000) 600)
    (recorded (ofZ 3) (ofZ 1000) printsIt cs createRateLimiter []) <= 3 /\
  countIf (within (ofZ 1000) 600)
    (recorded (ofFloat 2.5) (ofZ 1000) printsIt cs createRateLimiter []) <= 3.
Proof.
  split; [lia|]. split; [reflexivity|]. split; [reflexivity|].
  split; [reflexivity|]. split; [reflexivity|]. split; [reflexivity|]. split.
  - apply (limiter_keeps_the_limit _ _ _ (ofZ 3) (ofZ 1000) printsIt);
      [lia | reflexivity | reflexivity | reflexivity].
  - apply (limiter_keeps_the_limit _ _ _ (ofFloat 2.5) (ofZ 1000) printsIt);
      [lia | reflexivity | reflexivity | reflexivity].
Defined.

Lemma dropOld_all (threshold : Num) (l : list Z) :
  Forall (fun t => lt (ofZ t) threshold = true) l -> dropOld threshold l = [].
Proof.
  induction 1 as [|t l Ht _ IH]; cbn [dropOld]; [reflexivity|].
  rewrite Ht. exact IH.
Qed.

(** X5.  The wrapper never stays shut: whatever happened before and in
    whatever order the array is, when every timestamp in it is older
    than [windowMs] milliseconds and [maxCalls] is at least one, the
    call goes through to [fn], returns its result, and the array holds
    this call alone. *)
Theorem limiter_reopens_after_the_window :
  forall (W A R : Type) (maxCalls windowMs : Num) (fn : A -> W -> R * W)
         (now : Z) (args : A) (st : Limiter) (w : W),
    le (ofZ 1) maxCalls = true ->
    Forall (fun t => lt (ofZ t) (sub (ofZ now) windowMs) = true) (calls st) ->
    limited maxCalls windowMs fn now args st w
    = (Returned (fst (fn args w)),
       {| calls := [now]; refusals := refusals st |},
       snd (fn args w)).
Proof.
  intros W A R maxCalls windowMs fn now args st w Hmax Hold.
  destruct (limited_cases maxCalls windowMs fn now args st w)
    as [[_ ->] | [Hfull _]]; rewrite (dropOld_all _ _ Hold) in *.
  - reflexivity.
  - cbn [length] in Hfull. change (Z.of_nat 0) with 0 in Hfull.
    rewrite (NumFacts.at_least_one maxCalls Hmax) in Hfull. discriminate.
Qed.

(** A limiter that refuses at time 0 lets the call through at 1001. *)
Lemma limiter_reopens_after_the_window_witness :
  let full := (runLimited (ofZ 3) (ofZ 1000) printsIt
                 [(0, "Call 1"); (0, "Call 2"); (0, "Call 3"); (0, "Call 4")]
                 createRateLimiter []).1.2 in
  le (ofZ 1) (ofZ 3) = true /\
  Forall (fun t => lt (ofZ t) (sub (ofZ 1001) (ofZ 1000)) = true) (calls full) /\
  (limited (ofZ 3) (ofZ 1000) printsIt 1001 "Call 5" full []).1.1 = Returned tt.
Proof.
  assert (Hold : Forall (fun t => lt (ofZ t) (sub (ofZ 1001) (ofZ 1000)) = true)
                   [0; 0; 0])
    by (repeat constructor).
  cbv zeta.
  change (runLimited (ofZ 3) (ofZ 1000) printsIt
            [(0, "Call 1"); (0, "Call 2"); (0, "Call 3"); (0, "Call 4")]
            createRateLimiter []).1.2
    with {| calls := [0; 0; 0]; refusals := 1 |}.
  split; [reflexivity|]. split; [exact Hold|].
  rewrite (limiter_reopens_after_the_window _ _ _ (ofZ 3) (ofZ 1000) printsIt
             1001 "Call 5" {| calls := [0; 0; 0]; refusals := 1 |} []);
    [reflexivity | reflexivity | exact Hold].
Defined.

(** Any [fn], made to note its invocations: the argument, and whether
    the invocation returned.  The notes travel with [fn]'s own store. *)
Definition noting {W R E} (fn : Key -> W -> Completion R E * W)
  : Key -> W * list (Key * bool) -> Completion R E * (W * list (Key * bool)) :=
  fun k s =>
    let '(c, w') := fn k (fst s) in
    (c, (w', snd s ++ [(k, returned c)])).


Section Noting.
Context {W R E : Type}.
Variable fn : Key -> W -> Completion R E * W.


End Noting.


(** The example's two calls with 5 invoke [expensiveCalculation] once; so
    do calls with [0] and [-0].  A function that throws at first is
    invoked twice for the one key. *)
Example memoized_invokes_once_example :
  (runMemoized (noting (@pureFn number Empty_set expensiveOnKey))
     [KNumber 5; KNumber 5] createMemoizedFunction (tt, [])).2.2
  = [(KNumber 5, true)] /\
  (runMemoized (noting (@pureFn number Empty_set expensiveOnKey))
     [KNumber 0; KNumber (-0)] createMemoizedFunction (tt, [])).2.2
  = [(KNumber 0, true)] /\
  (runMemoized (noting flaky) [KNumber 1; KNumber 1; KNumber 1]
     createMemoizedFunction (0%nat, [])).2.2
  = [(KNumber 1, false); (KNumber 1, true)].
Proof. vm_compute. repeat split; reflexivity. Qed.

End GuaranteeFacts.

(* ===================================================================== *)
(** * Streams: counting lines, the number stream, chunking of CSV text *)
(* ===================================================================== *)

Module StreamMoreFacts.
Import Stream StreamMore.

(** [split] returns at least one piece. *)
Lemma split_has_a_piece (sep : ascii) (s : string) : split sep s <> [].
Proof.
  destruct s as [|c s]; simpl; [discriminate|].
  destruct (Ascii.eqb c sep); [discriminate|].
  destruct (split sep s); discriminate.
Qed.

(** Whether a text holds a line feed. *)
Fixpoint hasLF (s : string) : bool :=
  match s with
  | EmptyString => false
  | String c s' => Ascii.eqb c LF || hasLF s'
  end.

(** The line feeds of a text. *)
Fixpoint lineFeeds (s : string) : Z :=
  match s with
  | EmptyString => 0
  | String c s' => (if Ascii.eqb c LF then 1 else 0) + lineFeeds s'
  end.

Lemma split_length (s : string) :
  Z.of_nat (length (split LF s)) = 1 + lineFeeds s.
Proof.
  induction s as [|c s IH]; [reflexivity|].
  simpl. destruct (Ascii.eqb c LF).
  - simpl length. lia.
  - destruct (split LF s) as [|piece pieces] eqn:Hs.
    + exfalso. exact (split_has_a_piece LF s Hs).
    + simpl length in *. lia.
Qed.

Lemma lineFeeds_app (a b : string) :
  lineFeeds (a +:+ b) = lineFeeds a + lineFeeds b.
Proof.
  induction a as [|c a IH]; [reflexivity|].
  change (String c a +:+ b) with (String c (a +:+ b)).
  simpl. rewrite IH. lia.
Qed.

Lemma lineFeeds_none (s : string) : hasLF s = false -> lineFeeds s = 0.
Proof.
  induction s as [|c s IH]; intros H; [reflexivity|].
  simpl in H. apply orb_false_iff in H as [Hc Hs].
  simpl. rewrite Hc, (IH Hs). reflexivity.
Qed.

Lemma readLargeFile_from (chunks : list string) :
  forall lineCount : Z,
    foldl onData lineCount chunks = lineCount + lineFeeds (joined chunks).
Proof.
  induction chunks as [|chunk chunks IH]; intros lineCount; simpl.
  - lia.
  - rewrite IH. unfold onData. rewrite split_length, lineFeeds_app. lia.
Qed.

(** X7.  [readLargeFile] counts the line feeds of the file: the count it
    prints does not depend on where the file is cut into chunks, and a
    last line without a line feed is not counted. *)
Theorem readLargeFile_counts_line_feeds :
  forall chunks : list string,
    readLargeFile chunks = lineFeeds (joined chunks) /\
    (forall chunks' : list string,
        joined chunks' = joined chunks ->
        readLargeFile chunks' = readLargeFile chunks) /\
    (forall tail : string,
        hasLF tail = false ->
        readLargeFile (chunks ++ [tail]) = readLargeFile chunks).
Proof.
  intros chunks. unfold readLargeFile.
  split; [|split].
  - rewrite readLargeFile_from. lia.
  - intros chunks' Hsame. rewrite !readLargeFile_from, Hsame. reflexivity.
  - intros tail Htail. rewrite foldl_app. simpl. unfold onData at 1.
    rewrite split_length, (lineFeeds_none tail Htail). lia.
Qed.

Example readLargeFile_example :
  readLargeFile ["one" +:+ String LF "tw"; "o" +:+ String LF "three"] = 2 /\
  readLargeFile ["one" +:+ String LF "two" +:+ String LF "three"] = 2.
Proof. split; reflexivity. Qed.

Lemma joined_lines (data : list string) :
  Forall (fun l => hasLF l = false) data ->
  lineFeeds (joined (map (fun l => l +:+ String LF "") data))
  = Z.of_nat (length data).
Proof.
  induction 1 as [|l data Hl _ IH]; [reflexivity|].
  simpl joined. rewrite !lineFeeds_app, IH, (lineFeeds_none l Hl).
  simpl lineFeeds. simpl length. lia.
Qed.

(** X8.  Writing and reading back.  A file made of the chunks that
    [writeToFile] submits for lines without line feeds is reported by
    [readLargeFile] to have as many lines as were written, whatever the
    stream answered while writing and however the file is cut into
    chunks on reading. *)
Theorem written_lines_are_counted_on_reading :
  forall (Wr : Type) (write : Wr -> string -> Wr * bool) (wr : Wr)
         (data chunks : list string),
    Forall (fun l => hasLF l = false) data ->
    joined chunks = joined (fst (writeToFile write data wr)) ->
    readLargeFile chunks = Z.of_nat (length data).
Proof.
  intros Wr write wr data chunks Hdata Hfile.
  unfold readLargeFile.
  rewrite readLargeFile_from, Hfile, WriterFacts.writeToFile_submits.
  rewrite (joined_lines data Hdata). lia.
Qed.

Lemma written_lines_are_counted_on_reading_witness :
  let data := ["Line 1"; "Line 2"; "Line 3"] in
  let chunks := ["Line 1" +:+ String LF "Li"; "ne 2" +:+ String LF "Line 3" +:+ String LF ""] in
  Forall (fun l => hasLF l = false) data /\
  joined chunks = joined (fst (writeToFile roomyWrite data [])) /\
  readLargeFile chunks = 3.
Proof.
  assert (Hdata : Forall (fun l => hasLF l = false) ["Line 1"; "Line 2"; "Line 3"])
    by (repeat constructor).
  split; [exact Hdata|]. split; [reflexivity|].
  exact (written_lines_are_counted_on_reading _ roomyWrite []
           ["Line 1"; "Line 2"; "Line 3"] _ Hdata eq_refl).
Defined.

(** ** The number stream *)

Lemma flow_counts (n : nat) :
  forall (fuel : nat) (s : NumberStream),
    Z.of_nat n = max s - current s + 1 -> (n < fuel)%nat ->
    (flow fuel s).1 = (ClosureMoreFacts.countFrom (current s) n, true).
Proof.
  induction n as [|n IH]; intros fuel s Hn Hfuel;
    (destruct fuel as [|fuel]; [lia|]); simpl; unfold _read.
  - assert (H : (current s <=? max s) = false) by (apply Z.leb_gt; lia).
    rewrite H. reflexivity.
  - assert (H : (current s <=? max s) = true) by (apply Z.leb_le; lia).
    rewrite H.
    specialize (IH fuel {| current := current s + 1; max := max s |}).
    simpl in IH.
    destruct (flow fuel {| current := current s + 1; max := max s |})
      as [[chunks ended] s''].
    simpl in *. assert (Hrest := IH ltac:(lia) ltac:(lia)).
    injection Hrest as -> ->. reflexivity.
Qed.

(** X11.  [new NumberStream(max)] emits the numbers 1, 2, ..., [max] in
    order, one chunk each, and then ends, after [max + 1] calls of
    [_read]; when [max] is below 1 it ends at once without data. *)
Theorem number_stream_counts_to_max :
  forall (max : Z) (fuel : nat),
    (Z.to_nat max < fuel)%nat ->
    (flow fuel (newNumberStream max)).1
    = (ClosureMoreFacts.countFrom 1 (Z.to_nat max), true).
Proof.
  intros max fuel Hfuel.
  destruct (Z_le_gt_dec 1 max) as [Hmax | Hmax].
  - apply (flow_counts (Z.to_nat max) fuel (newNumberStream max)); [simpl; lia | exact Hfuel].
  - replace (Z.to_nat max) with 0%nat by lia.
    destruct fuel as [|fuel]; [lia|]. simpl. unfold _read. simpl.
    assert (H : (1 <=? max) = false) by (apply Z.leb_gt; lia).
    rewrite H. reflexivity.
Qed.

Lemma number_stream_counts_to_max_witness :
  (Z.to_nat 5 < 6)%nat /\
  (flow 6 (newNumberStream 5)).1 = ([1; 2; 3; 4; 5], true).
Proof.
  split; [vm_compute; lia|].
  apply (number_stream_counts_to_max 5 6). vm_compute. lia.
Defined.

End StreamMoreFacts.

(* ===================================================================== *)
(** * Streams: chunking of CSV text, rows wider than the header *)
(* ===================================================================== *)

Module CSVMoreFacts.
Import JsString CSV.
Import CSVFacts.

(** ** Chunks of CSV text that end at a line end *)

Lemma split_app_LF (a b : jsstring) :
  split LF (a ++ LF :: b) = split LF a ++ split LF b.
Proof.
  induction a as [|c a IH]; [reflexivity|].
  cbn [app split]. rewrite IH. destruct (c =? LF)%N; [reflexivity|].
  destruct (split LF a) as [|piece pieces] eqn:Ha; [|reflexivity].
  exfalso. exact (split_nonempty LF a Ha).
Qed.

Lemma split_line (b rest : jsstring) :
  split LF (line b ++ rest) = split LF b ++ split LF rest.
Proof.
  unfold line. rewrite <- app_assoc. apply split_app_LF.
Qed.

Lemma split_line_alone (b : jsstring) : split LF (line b) = split LF b ++ [[]].
Proof. unfold line. apply split_app_LF. Qed.

(** The lines of chunks that end at line ends, and the lines of the text
    they make up: the same but for empty lines. *)
Lemma lines_of_whole_chunks (bodies : list jsstring) (lastChunk : jsstring) :
  List.filter notBlank (linesWritten (List.map line bodies ++ [lastChunk]))
  = List.filter notBlank (split LF (concat (List.map line bodies ++ [lastChunk]))) /\
  head (linesWritten (List.map line bodies ++ [lastChunk]))
  = head (split LF (concat (List.map line bodies ++ [lastChunk]))).
Proof.
  unfold linesWritten. induction bodies as [|b bodies [IHf IHh]].
  - cbn [List.map app concat]. rewrite !app_nil_r. split; reflexivity.
  - change (List.map line (b :: bodies) ++ [lastChunk])
      with (line b :: (List.map line bodies ++ [lastChunk])).
    change (concat (line b :: (List.map line bodies ++ [lastChunk])))
      with (line b ++ concat (List.map line bodies ++ [lastChunk])).
    change (concat (List.map (split LF) (line b :: (List.map line bodies ++ [lastChunk]))))
      with (split LF (line b)
              ++ concat (List.map (split LF) (List.map line bodies ++ [lastChunk]))).
    rewrite split_line, split_line_alone.
    rewrite !List.filter_app, IHf. split.
    + cbn [List.filter]. unfold notBlank at 2. cbn [trim trimStart rev truthy].
      rewrite app_nil_r. reflexivity.
    + destruct (split LF b) as [|piece pieces] eqn:Hb; [|reflexivity].
      exfalso. exact (split_nonempty LF b Hb).
Qed.

Lemma parsed_same_lines (lines1 lines2 : list jsstring) :
  head lines1 = head lines2 ->
  List.filter notBlank lines1 = List.filter notBlank lines2 ->
  match lines1 with
  | [] => []
  | first :: later =>
      List.map (rowObject (split comma first)) (List.filter notBlank later)
  end =
  match lines2 with
  | [] => []
  | first :: later =>
      List.map (rowObject (split comma first)) (List.filter notBlank later)
  end.
Proof.
  intros Hhead Hfilter.
  destruct lines1 as [|f1 l1], lines2 as [|f2 l2]; try discriminate; [reflexivity|].
  simpl in Hhead. injection Hhead as <-. cbn [List.filter] in Hfilter.
  destruct (notBlank f1); [injection Hfilter as ->|rewrite Hfilter]; reflexivity.
Qed.

(** X9.  When every chunk written, the last apart, ends with a line
    feed, the parser emits what it emits for the whole text written as
    one chunk, and takes the same header: cutting CSV text at line ends
    changes nothing. *)
Theorem csv_chunks_at_line_ends :
  forall (bodies : list jsstring) (lastChunk : jsstring),
    let chunks := List.map line bodies ++ [lastChunk] in
    pushed (writeChunks chunks) = pushed (writeChunks [concat chunks]) /\
    header (writeChunks chunks) = header (writeChunks [concat chunks]).
Proof.
  intros bodies lastChunk chunks.
  destruct (writeChunks_parsed chunks) as [-> ->].
  destruct (writeChunks_parsed [concat chunks]) as [-> ->].
  destruct (lines_of_whole_chunks bodies lastChunk) as [Hfilter Hhead].
  fold chunks in Hfilter, Hhead.
  assert (Hone : linesWritten [concat chunks] = split LF (concat chunks)).
  { unfold linesWritten. cbn [List.map concat]. apply app_nil_r. }
  rewrite Hone. split.
  - unfold parsed. rewrite Hone. apply parsed_same_lines; assumption.
  - rewrite Hhead. reflexivity.
Qed.

Example csv_chunks_at_line_ends_example :
  pushed (writeChunks [line (js "name,age"); line (js "Alice,30"); js "Bob,25"])
  = pushed (writeChunks [js "name,age" ++ [LF] ++ js "Alice,30" ++ [LF] ++ js "Bob,25"]).
Proof. vm_compute. reflexivity. Qed.

(** ** Rows wider than the header *)

Lemma reduceFrom_ext (h : list jsstring) :
  forall (i : nat) (values values' : list jsstring) (acc : JsObject),
    (forall j, (j < length h)%nat -> values !! (i + j)%nat = values' !! (i + j)%nat) ->
    reduceFrom i h values acc = reduceFrom i h values' acc.
Proof.
  induction h as [|key h IH]; intros i values values' acc Hsame; [reflexivity|].
  cbn [reduceFrom]. rewrite <- (Nat.add_0_r i) at 2 4.
  rewrite (Hsame 0%nat) by (simpl; lia).
  rewrite Nat.add_0_r. apply IH. intros j Hj.
  replace (S i + j)%nat with (i + S j)%nat by lia. apply Hsame. simpl. lia.
Qed.

(** X10.  A row's object depends on as many values as the header has
    fields: whatever follows them in the line is ignored. *)
Theorem csv_values_beyond_header_ignored :
  forall (h : list jsstring) (l l' : jsstring),
    take (length h) (split comma l) = take (length h) (split comma l') ->
    rowObject h l = rowObject h l'.
Proof.
  intros h l l' Htake. unfold rowObject. f_equal.
  apply reduceFrom_ext. intros j Hj. simpl.
  rewrite <- (lookup_take_lt (split comma l) (length h) j) by exact Hj.
  rewrite <- (lookup_take_lt (split comma l') (length h) j) by exact Hj.
  rewrite Htake. reflexivity.
Qed.

Lemma csv_values_beyond_header_ignored_witness :
  take (length (split comma (js "name,age"))) (split comma (js "Alice,30,NYC,extra"))
  = take (length (split comma (js "name,age"))) (split comma (js "Alice,30")) /\
  rowObject (split comma (js "name,age")) (js "Alice,30,NYC,extra")
  = rowObject (split comma (js "name,age")) (js "Alice,30").
Proof.
  split; [reflexivity|].
  apply csv_values_beyond_header_ignored. reflexivity.
Defined.

End CSVMoreFacts.

(* ===================================================================== *)
(** * Blocking computation: the Fibonacci function *)
(* ===================================================================== *)

Module BlockingFacts.
Import Blocking.

Lemma calculateFibonacci_base (n : Z) : n <= 1 -> calculateFibonacci n = n.
Proof.
  intros Hn. rewrite calculateFibonacci_equation_1.
  destruct (Z_le_gt_dec n 1) as [Hle|Hgt]; [reflexivity | lia].
Qed.

Lemma calculateFibonacci_step (n : Z) :
  1 < n ->
  calculateFibonacci n = calculateFibonacci (n - 1) + calculateFibonacci (n - 2).
Proof.
  intros Hn. rewrite calculateFibonacci_equation_1.
  destruct (Z_le_gt_dec n 1) as [Hle|Hgt]; [lia | reflexivity].
Qed.

(** The Fibonacci numbers by iteration: the [n]th and the next. *)
Fixpoint fibPair (n : nat) : Z * Z :=
  match n with
  | O => (0, 1)
  | S n' => let '(a, b) := fibPair n' in (b, a + b)
  end.

Lemma calculateFibonacci_pair (n : nat) :
  calculateFibonacci (Z.of_nat n) = fst (fibPair n) /\
  calculateFibonacci (Z.of_nat n + 1) = snd (fibPair n).
Proof.
  induction n as [|n [IHa IHb]].
  - split; [apply (calculateFibonacci_base 0) | apply (calculateFibonacci_base 1)]; lia.
  - cbn [fibPair]. destruct (fibPair n) as [a b]. cbn [fst snd] in *.
    rewrite Nat2Z.inj_succ. unfold Z.succ.
    split; [exact IHb|].
    rewrite calculateFibonacci_step by lia.
    replace (Z.of_nat n + 1 + 1 - 1) with (Z.of_nat n + 1) by lia.
    replace (Z.of_nat n + 1 + 1 - 2) with (Z.of_nat n) by lia.
    rewrite IHa, IHb. lia.
Qed.

Lemma fibPair_nonneg (n : nat) : 0 <= fst (fibPair n) /\ 0 < snd (fibPair n).
Proof.
  induction n as [|n [IHa IHb]]; simpl; [lia|].
  destruct (fibPair n) as [a b]. simpl in *. lia.
Qed.

(** X12.  [calculateFibonacci] returns every argument up to 1 unchanged,
    negative ones too; above 1 it is the sum of its two predecessors; so
    on the natural numbers it computes the Fibonacci numbers, which are
    never negative, and [calculateFibonacci(40)] is 102334155. *)
Theorem calculateFibonacci_is_fibonacci :
  (forall n : Z, n <= 1 -> calculateFibonacci n = n) /\
  (forall n : Z, 1 < n ->
     calculateFibonacci n
     = calculateFibonacci (n - 1) + calculateFibonacci (n - 2)) /\
  (forall n : nat, calculateFibonacci (Z.of_nat n) = fst (fibPair n)) /\
  (forall n : Z, 0 <= n -> 0 <= calculateFibonacci n) /\
  calculateFibonacci 40 = 102334155.
Proof.
  split; [exact calculateFibonacci_base|].
  split; [exact calculateFibonacci_step|].
  split; [intros n; apply calculateFibonacci_pair|].
  split.
  - intros n Hn. rewrite <- (Z2Nat.id n Hn).
    rewrite (proj1 (calculateFibonacci_pair (Z.to_nat n))).
    apply fibPair_nonneg.
  - change 40 with (Z.of_nat 40).
    rewrite (proj1 (calculateFibonacci_pair 40)). vm_compute. reflexivity.
Qed.

Example calculateFibonacci_small :
  map calculateFibonacci [-3; 0; 1; 2; 3; 4; 5; 6; 7; 8; 9; 10]
  = [-3; 0; 1; 1; 2; 3; 5; 8; 13; 21; 34; 55].
Proof. vm_compute. reflexivity. Qed.

End BlockingFacts.

(* ===================================================================== *)
(** * The Result-type demo: what the chain and the validators accept *)
(* ===================================================================== *)

Module ValidationFacts.
Import NeverThrow JsString Validation.

Example validateEmail_examples :
  List.map (fun e => emailRegex_test (js e))
    ["user@example.com"; "a@b.c"; "a@b"; "@b.c"; "a@.c"; "a@b."; "a b@c.d";
     "a@b@c.d"; "a@b.c.d"; ""]
  = [true; true; false; false; false; false; false; false; true; false].
Proof. reflexivity. Qed.

(** An em space (U+2003) and a no-break space are white space to the
    expression; a letter beyond ASCII is not. *)
Example validateEmail_white_space :
  emailRegex_test (js "a" ++ [8195%N] ++ js "b@c.de") = false /\
  emailRegex_test (js "a" ++ [160%N] ++ js "b@c.de") = false /\
  emailRegex_test (js "a" ++ [233%N] ++ js "b@c.de") = true.
Proof. repeat split. Qed.

Lemma truthy_nonempty (s : jsstring) : truthy s = true <-> s <> [].
Proof. destruct s; simpl; split; congruence. Qed.

Lemma plain_not_at (c : N) : plain c = true -> (c =? at_sign)%N = false.
Proof.
  unfold plain. intros H. apply andb_true_iff in H as [_ H].
  apply negb_true_iff in H. exact H.
Qed.

(** What the domain part accepts, [seen] standing for characters read
    before. *)
Lemma domainPart_spec (r : jsstring) :
  forall seen : bool,
    domainPart seen r = true <->
    exists v w,
      r = v ++ dot :: w /\
      (seen = true \/ v <> []) /\ w <> [] /\
      allPlain v = true /\ allPlain w = true.
Proof.
  induction r as [|c r IH]; intros seen; cbn [domainPart].
  - split; [discriminate|]. intros (v & w & Hr & _). destruct v; discriminate.
  - rewrite andb_true_iff, orb_true_iff, !andb_true_iff, truthy_nonempty, IH.
    split.
    + intros [Hc [[[[Hseen Hdot] Hw] Hne] | (v & w & -> & _ & Hw & Hv & Hw')]].
      * apply N.eqb_eq in Hdot as ->.
        exists [], r.
        split; [reflexivity|]. split; [left; exact Hseen|].
        split; [exact Hne|]. split; [reflexivity | exact Hw].
      * exists (c :: v), w.
        split; [reflexivity|]. split; [right; discriminate|].
        split; [exact Hw|]. split; [|exact Hw'].
        cbn [allPlain]. rewrite Hc, Hv. reflexivity.
    + intros (v & w & Hr & Hseen & Hw & Hv & Hw').
      destruct v as [|c' v].
      * cbn [app] in Hr. injection Hr as -> ->.
        split; [reflexivity|]. left.
        destruct Hseen as [-> | Hv']; [|congruence].
        split; [|exact Hw]. split; [|exact Hw']. split; reflexivity.
      * cbn [app] in Hr. injection Hr as -> ->.
        cbn [allPlain] in Hv. apply andb_true_iff in Hv as [Hc Hv].
        split; [exact Hc|]. right. exists v, w.
        split; [reflexivity|]. split; [left; reflexivity|].
        split; [exact Hw|]. split; [exact Hv | exact Hw'].
Qed.

Lemma localPart_spec (s : jsstring) :
  forall seen : bool,
    localPart seen s = true <->
    exists u r,
      s = u ++ at_sign :: r /\
      (seen = true \/ u <> []) /\
      allPlain u = true /\ domainPart false r = true.
Proof.
  induction s as [|c s IH]; intros seen; cbn [localPart].
  - split; [discriminate|]. intros (u & r & Hs & _). destruct u; discriminate.
  - destruct (c =? at_sign)%N eqn:Hat.
    + apply N.eqb_eq in Hat as ->. rewrite andb_true_iff. split.
      * intros [Hseen Hdom]. exists [], s.
        split; [reflexivity|]. split; [left; exact Hseen|].
        split; [reflexivity | exact Hdom].
      * intros (u & r & Hs & Hseen & Hu & Hdom). destruct u as [|c' u].
        -- cbn [app] in Hs. injection Hs as ->.
           destruct Hseen as [-> | Hu']; [|congruence].
           split; [reflexivity | exact Hdom].
        -- cbn [app] in Hs. injection Hs as <- ->.
           cbn [allPlain] in Hu. apply andb_true_iff in Hu as [Hc _].
           apply plain_not_at in Hc. rewrite N.eqb_refl in Hc. discriminate.
    + rewrite andb_true_iff, IH. split.
      * intros [Hc (u & r & -> & _ & Hu & Hdom)].
        exists (c :: u), r.
        split; [reflexivity|]. split; [right; discriminate|].
        split; [|exact Hdom]. cbn [allPlain]. rewrite Hc, Hu. reflexivity.
      * intros (u & r & Hs & Hseen & Hu & Hdom). destruct u as [|c' u].
        -- cbn [app] in Hs. injection Hs as -> ->.
           rewrite N.eqb_refl in Hat. discriminate.
        -- cbn [app] in Hs. injection Hs as -> ->.
           cbn [allPlain] in Hu. apply andb_true_iff in Hu as [Hc Hu].
           split; [exact Hc|]. exists u, r.
           split; [reflexivity|]. split; [left; reflexivity|].
           split; [exact Hu | exact Hdom].
Qed.

(** X13.  [validateEmail] accepts exactly the strings made of a local
    part, "@", a domain, ".", and an ending, each of the three not empty
    and free of "@" and of white space (every character that [\s]
    matches, those beyond ASCII included); it returns these unchanged in
    [ok], and [err("Invalid email format")] for every other string. *)
Theorem validateEmail_accepts_local_at_domain_dot_ending :
  forall e : jsstring,
    (validateEmail e = ok e <->
     exists u v w : jsstring,
       e = u ++ at_sign :: (v ++ dot :: w) /\
       u <> [] /\ v <> [] /\ w <> [] /\
       allPlain u = true /\ allPlain v = true /\ allPlain w = true) /\
    (validateEmail e = ok e \/ validateEmail e = err "Invalid email format") /\
    (forall c : N,
        plain c = true <-> isWhiteSpace c = false /\ c <> at_sign).
Proof.
  intros e. unfold validateEmail, emailRegex_test.
  assert (Hplain : forall c : N,
             plain c = true <-> isWhiteSpace c = false /\ c <> at_sign).
  { intros c. unfold plain.
    rewrite andb_true_iff, !negb_true_iff, N.eqb_neq. tauto. }
  destruct (localPart false e) eqn:Htest.
  - split; [|split; [left; reflexivity | exact Hplain]].
    split; [intros _|reflexivity].
    apply localPart_spec in Htest as (u & r & -> & Hu & Hplain' & Hdom).
    apply domainPart_spec in Hdom as (v & w & -> & Hv & Hw & Hv' & Hw').
    exists u, v, w.
    destruct Hu as [Hu | Hu]; [discriminate|].
    destruct Hv as [Hv | Hv]; [discriminate|].
    split; [reflexivity|]. split; [exact Hu|]. split; [exact Hv|].
    split; [exact Hw|]. split; [exact Hplain'|]. split; [exact Hv' | exact Hw'].
  - split; [|split; [right; reflexivity | exact Hplain]].
    split; [discriminate|].
    intros (u & v & w & -> & Hu & Hv & Hw & Hu' & Hv' & Hw').
    exfalso. apply not_true_iff_false in Htest. apply Htest.
    apply localPart_spec. exists u, (v ++ dot :: w).
    split; [reflexivity|]. split; [right; exact Hu|]. split; [exact Hu'|].
    apply domainPart_spec. exists v, w.
    split; [reflexivity|]. split; [right; exact Hv|].
    split; [exact Hw|]. split; [exact Hv' | exact Hw'].
Qed.

(** X14.  [validateForm] returns [ok] of the two inputs unchanged exactly
    when the email passes [validateEmail] and the password has 8
    characters or more; a bad email is reported whatever the password
    is, and the password's error only for a good email. *)
Theorem validateForm_checks_email_first :
  forall e p : jsstring,
    (validateForm e p = ok {| email := e; password := p |} <->
     emailRegex_test e = true /\ 8 <= Z.of_nat (length p)) /\
    (emailRegex_test e = false ->
     validateForm e p = err "Invalid email format") /\
    (emailRegex_test e = true -> Z.of_nat (length p) < 8 ->
     validateForm e p = err "Password must be at least 8 characters") /\
    (forall data : FormData,
        validateForm e p = ok data -> email data = e /\ password data = p).
Proof.
  intros e p. unfold validateForm, validateEmail, validatePassword.
  destruct (emailRegex_test e); cbn [andThen map];
    destruct (8 <=? Z.of_nat (length p)) eqn:Hp; cbn [andThen map];
    try (apply Z.leb_le in Hp); try (apply Z.leb_gt in Hp);
    (split; [|split; [|split]]).
  - split; [intros _; split; [reflexivity | exact Hp] | reflexivity].
  - discriminate.
  - intros _ Hshort. lia.
  - intros d H. injection H as <-. split; reflexivity.
  - split; [discriminate | intros [_ Hlong]; lia].
  - discriminate.
  - reflexivity.
  - intros d H. discriminate.
  - split; [discriminate | intros [H _]; discriminate].
  - reflexivity.
  - discriminate.
  - intros d H. discriminate.
  - split; [discriminate | intros [H _]; discriminate].
  - reflexivity.
  - discriminate.
  - intros d H. discriminate.
Qed.

(** X15.  The chain [findUser(i).andThen(checkAge).map(user => user.name)]
    is [ok("Alice")] exactly when [i === 1] and [err("User not found")]
    for every other number: the age check never fails on a user that
    [findUser] finds.  [checkAge] itself accepts a user exactly when
    [age >= 18], which is false of [NaN]. *)
Theorem userName_is_alice_or_not_found :
  forall i : number,
    (userName i = ok "Alice" <-> PrimFloat.eqb i 1%float = true) /\
    (userName i = err "User not found" <-> PrimFloat.eqb i 1%float = false) /\
    unwrapOr (userName i) "Unknown"
      = (if PrimFloat.eqb i 1%float then "Alice" else "Unknown") /\
    (forall user : User,
        isOk (checkAge user) = PrimFloat.leb 18%float (age user)) /\
    checkAge {| id := 2%float; name := "Baby"; age := nan |}
      = err "User is under 18".
Proof.
  intros i. unfold userName, findUser.
  destruct (PrimFloat.eqb i 1%float); simpl.
  - repeat split; try reflexivity; try discriminate.
    intros user. unfold checkAge. destruct (PrimFloat.leb 18 (age user)); reflexivity.
  - repeat split; try reflexivity; try discriminate.
    intros user. unfold checkAge. destruct (PrimFloat.leb 18 (age user)); reflexivity.
Qed.

End ValidationFacts.
